(** * lexical-sort: the word-tuple generators of [generate.py]

    A shallow embedding of the three generators of [generate.py]
    ([generate_alphabetical_order_recall_words],
    [generate_sorting_algorithm_words], [generate_word_tuples]) and the
    properties their specification states about them.

    Modelling conventions.
    - Words are ASCII strings ([string]); [str.lower] is the ASCII
      lower-casing (the word list is a list of Latin-letter words).
    - Python integers are [Z]; the floats [probability_goal1],
      [probability_goal2] and the draw [r] are rationals ([Q]): only their
      order is ever inspected by the program.
    - A Python [dict] is an association list in insertion order, which is
      the order [list(d.keys())] iterates in.  A Python [set] is a
      duplicate-free list.  Python leaves the iteration order of a set
      open; the model iterates in insertion order, which only decides which
      draw selects which prefix.
    - Exceptions are values: a computation yields [Ok v] or [Raise e].
    - The module-level random source is a list of draws threaded through
      every call; when the list is used up the remaining draws are 0.
      [random.choice], [random.randint], [random.sample] and
      [random.uniform] each reduce one draw per random decision into their
      range, so that every outcome of the Python call is the image of some
      draw.
    - Two ghost fields observe a run without influencing it: a trace of
      the calls to the two underlying generators and of their normal
      returns, and a count of the tuples abandoned at the [break] of the
      letter search. *)

From Stdlib Require Import List String Ascii ZArith NArith QArith Lia Lqa Bool Arith.
From Stdlib Require Import Sorted Permutation.
Import ListNotations.

Local Open Scope string_scope.
Local Open Scope list_scope.
Local Open Scope Z_scope.

(** ** Python values and exceptions *)

Inductive exn : Type :=
| TypeError
| ValueError
| IndexError
| KeyError.

Inductive result (A : Type) : Type :=
| Ok (a : A)
| Raise (e : exn).
Arguments Ok {A} a.
Arguments Raise {A} e.

(** The value bound to a [difficulty] parameter: Python passes either an
    [int] or a tuple of [int]s. *)
Inductive pyval : Type :=
| PyInt (z : Z)
| PyTuple (l : list Z).

(** A word tuple is the tuple of its words, in order. *)
Definition word_tuple : Type := list string.

(** ** The ghost trace and the random source *)

Inductive event : Type :=
| CallAlphabetical (difficulty_range : pyval) (count tuple_size : Z)
| CallSorting (rank count tuple_size : Z)
| Returned (n : nat).

Record world : Type := mkWorld
  { draws : list N;        (* the random draws still to come *)
    trace : list event;    (* ghost: newest event first *)
    abandoned : nat }.     (* ghost: letter searches given up *)

Definition M (A : Type) : Type := world -> result A * world.

Definition ret {A} (a : A) : M A := fun w => (Ok a, w).
Definition raise {A} (e : exn) : M A := fun w => (Raise e, w).
Definition bind {A B} (m : M A) (k : A -> M B) : M B :=
  fun w => match m w with
           | (Ok a, w') => k a w'
           | (Raise e, w') => (Raise e, w')
           end.

Notation "x <- m ;; k" := (bind m (fun x => k))
  (at level 61, m at next level, right associativity).
Notation "' p <- m ;; k" := (bind m (fun x => let p := x in k))
  (at level 61, p pattern, m at next level, right associativity).

Definition log (e : event) : M unit :=
  fun w => (Ok tt, mkWorld (draws w) (e :: trace w) (abandoned w)).

Definition abandon : M unit :=
  fun w => (Ok tt, mkWorld (draws w) (trace w) (S (abandoned w))).

Definition draw : M N :=
  fun w => match draws w with
           | [] => (Ok 0%N, w)
           | n :: rest => (Ok n, mkWorld rest (trace w) (abandoned w))
           end.

Definition start (rng : list N) : world := mkWorld rng [] O.

(** Runs a computation on a random source. *)
Definition run {A} (m : M A) (rng : list N) : result A :=
  fst (m (start rng)).

(** The calls made during a run, oldest first. *)
Definition events {A} (m : M A) (rng : list N) : list event :=
  rev (trace (snd (m (start rng)))).

(** The number of letter searches given up during a run. *)
Definition given_up {A} (m : M A) (rng : list N) : nat :=
  abandoned (snd (m (start rng))).

(** ** The [random] module *)

Definition randbelow (n : nat) : M nat :=
  x <- draw ;; ret (N.to_nat x mod n)%nat.

(** [random.choice(seq)]: [IndexError] on an empty sequence. *)
Definition choice {A} (seq : list A) : M A :=
  match seq with
  | [] => raise IndexError
  | _ :: _ =>
      i <- randbelow (List.length seq) ;;
      match nth_error seq i with
      | Some x => ret x
      | None => raise IndexError
      end
  end.

(** [random.randint(a, b)]: [ValueError] on an empty range. *)
Definition randint (a b : Z) : M Z :=
  if b <? a then raise ValueError
  else x <- draw ;; ret (a + Z.of_N x mod (b - a + 1)).

Fixpoint remove_nth {A} (i : nat) (l : list A) : list A :=
  match l, i with
  | [], _ => []
  | _ :: l', O => l'
  | x :: l', S i' => x :: remove_nth i' l'
  end.

Fixpoint sample_loop {A} (k : nat) (pool : list A) : M (list A) :=
  match k with
  | O => ret []
  | S k' =>
      i <- randbelow (List.length pool) ;;
      match nth_error pool i with
      | Some x => rest <- sample_loop k' (remove_nth i pool) ;; ret (x :: rest)
      | None => raise ValueError
      end
  end.

(** [random.sample(population, k)]: [k] elements at distinct positions;
    [ValueError] when [k] is negative or larger than the population. *)
Definition sample {A} (population : list A) (k : Z) : M (list A) :=
  if (k <? 0) || (Z.of_nat (List.length population) <? k) then raise ValueError
  else sample_loop (Z.to_nat k) population.

Definition two_pow_53 : N := 9007199254740992%N.

(** [random.random()]: a multiple of 2^-53 in [0, 1). *)
Definition random_unit : M Q :=
  x <- draw ;; ret (Z.of_N (x mod two_pow_53) # 9007199254740992).

(** [random.uniform(a, b)] is [a + (b - a) * random()]. *)
Definition uniform (a b : Q) : M Q :=
  u <- random_unit ;; ret (a + (b - a) * u)%Q.

(** [x < y] on the rationals standing for floats. *)
Definition Qltb (x y : Q) : bool := negb (Qle_bool y x).

(** ** Strings *)

Definition lower_char (c : ascii) : ascii :=
  let n := N_of_ascii c in
  if ((65 <=? n) && (n <=? 90))%N then ascii_of_N (n + 32) else c.

(** [s.lower()] *)
Fixpoint lower (s : string) : string :=
  match s with
  | EmptyString => EmptyString
  | String c s' => String (lower_char c) (lower s')
  end.

Fixpoint take (n : nat) (s : string) : string :=
  match n, s with
  | O, _ => EmptyString
  | _, EmptyString => EmptyString
  | S n', String c s' => String c (take n' s')
  end.

(** [len(s)] *)
Definition len (s : string) : Z := Z.of_nat (String.length s).

(** [s[:k]]: a negative [k] counts from the end of the string. *)
Definition slice_to (s : string) (k : Z) : string :=
  if 0 <=? k then take (Z.to_nat k) s
  else take (Z.to_nat (len s + k)) s.

(** [s.startswith(p)] *)
Definition startswith (s p : string) : bool := String.prefix p s.

(** [string.ascii_lowercase] *)
Definition ascii_lowercase : string := "abcdefghijklmnopqrstuvwxyz".

Fixpoint char_in (c : ascii) (s : string) : bool :=
  match s with
  | EmptyString => false
  | String c' s' => Ascii.eqb c c' || char_in c s'
  end.

Fixpoint find_char (c : ascii) (s : string) : option nat :=
  match s with
  | EmptyString => None
  | String c' s' =>
      if Ascii.eqb c c' then Some O
      else match find_char c s' with
           | Some i => Some (S i)
           | None => None
           end
  end.

(** [s.index(c)]: [ValueError] when [c] does not occur. *)
Definition str_index (s : string) (c : ascii) : M Z :=
  match find_char c s with
  | Some i => ret (Z.of_nat i)
  | None => raise ValueError
  end.

(** [s[i]] for a non-negative [i] (the program only indexes with a
    residue modulo 26). *)
Definition str_getitem (s : string) (i : Z) : M ascii :=
  if i <? 0 then raise IndexError
  else match String.get (Z.to_nat i) s with
       | Some c => ret c
       | None => raise IndexError
       end.

(** ** Dictionaries of lists *)

Section Dict.
Context {K V : Type}.
Variable eqb : K -> K -> bool.

Definition dict : Type := list (K * list V).

(** [d.setdefault(k, []).append(v)] *)
Fixpoint setdefault_append (k : K) (v : V) (d : dict) : dict :=
  match d with
  | [] => [(k, [v])]
  | (k', vs) :: d' =>
      if eqb k k' then (k', vs ++ [v]) :: d'
      else (k', vs) :: setdefault_append k v d'
  end.

Fixpoint lookup (k : K) (d : dict) : option (list V) :=
  match d with
  | [] => None
  | (k', vs) :: d' => if eqb k k' then Some vs else lookup k d'
  end.

(** [k in d] *)
Definition has_key (k : K) (d : dict) : bool :=
  match lookup k d with Some _ => true | None => false end.

(** [d[k]]: [KeyError] on a missing key. *)
Definition getitem (d : dict) (k : K) : M (list V) :=
  match lookup k d with
  | Some vs => ret vs
  | None => raise KeyError
  end.

(** [d.keys()], in insertion order. *)
Definition keys (d : dict) : list K := map fst d.
End Dict.

(** A set of strings or letters as a list; [set_insert] is [s.add(x)]. *)
Definition mem {A} (eqb : A -> A -> bool) (x : A) (s : list A) : bool :=
  existsb (eqb x) s.

Definition set_insert {A} (eqb : A -> A -> bool) (x : A) (s : list A) : list A :=
  if mem eqb x s then s else s ++ [x].

(** [sorted] on single letters: insertion sort on the character codes. *)
Fixpoint insert_sorted (c : ascii) (l : list ascii) : list ascii :=
  match l with
  | [] => [c]
  | c' :: l' =>
      if (N_of_ascii c <=? N_of_ascii c')%N then c :: l
      else c' :: insert_sorted c l'
  end.

Definition sorted (l : list ascii) : list ascii :=
  fold_right insert_sorted [] l.

(** ** The generators *)

(** [a, b = v]: unpacking into two names. *)
Definition unpack2 (v : pyval) : M (Z * Z) :=
  match v with
  | PyInt _ => raise TypeError
  | PyTuple [a; b] => ret (a, b)
  | PyTuple _ => raise ValueError
  end.

(** Lines 29-33: the range the distances are sampled from. *)
Definition normalize_range (difficulty_range : pyval) : M (Z * Z) :=
  '(min_distance, max_distance) <- unpack2 difficulty_range ;;
  let min_distance := Z.max 1 min_distance in
  let max_distance := Z.min 25 max_distance in
  if min_distance >? max_distance
  then ret (max_distance, min_distance)
  else ret (min_distance, max_distance).

(** Lines 38-41: a non-empty word is filed under its lower-cased first
    character when that is a letter. *)
Definition file_by_letter
    (letter_to_words : dict (K := ascii) (V := string)) (word : string)
  : dict (K := ascii) (V := string) :=
  match word with
  | EmptyString => letter_to_words
  | String c _ =>
      let letter := lower_char c in
      if char_in letter ascii_lowercase
      then setdefault_append Ascii.eqb letter word letter_to_words
      else letter_to_words
  end.

(** Lines 36-41: the mapping from starting letters to words. *)
Definition build_letter_to_words (valid_words : list string)
  : dict (K := ascii) (V := string) :=
  fold_left file_by_letter valid_words [].

(** Lines 118-121: the set of prefixes, one per word. *)
Definition build_prefixes (valid_words : list string) (diff_position : Z)
  : list string :=
  fold_left
    (fun prefixes word =>
       set_insert String.eqb (lower (slice_to word diff_position)) prefixes)
    valid_words [].

(** Lines 128-135: one word is filed under its prefix, or, when it is
    shorter, under every prefix that starts with it. *)
Definition file_word (diff_position min_prefix_length : Z)
    (prefixes : list string)
    (prefix_to_words : dict (K := string) (V := string)) (word : string)
  : dict (K := string) (V := string) :=
  let word_lower := lower word in
  if len word_lower >=? diff_position then
    let prefix := slice_to word_lower diff_position in
    setdefault_append String.eqb prefix word prefix_to_words
  else if len word_lower >? min_prefix_length then
    fold_left
      (fun prefix_to_words prefix =>
         if startswith prefix word_lower
         then setdefault_append String.eqb prefix word prefix_to_words
         else prefix_to_words)
      prefixes prefix_to_words
  else prefix_to_words.

(** Lines 124-135: the mapping from prefixes to words. *)
Definition build_prefix_to_words (valid_words : list string)
    (diff_position min_prefix_length : Z) (prefixes : list string)
  : dict (K := string) (V := string) :=
  fold_left (file_word diff_position min_prefix_length prefixes)
            valid_words [].

Section Generators.
(** The module-level word list, loaded once. *)
Variable valid_words : list string.

Section Alphabetical.
Variables (min_distance max_distance : Z).
Variable letter_to_words : dict (K := ascii) (V := string).
Variable tuple_size : Z.

Section Tuple.
Variable start_index : Z.

(** Lines 61-65 and 71-73: a distance and the letter it leads to. *)
Definition sample_letter : M ascii :=
  distance <- randint min_distance max_distance ;;
  let new_index := (start_index + distance) mod 26 in
  str_getitem ascii_lowercase new_index.

(** Line 69, first conjunct. *)
Definition unsuitable (used_letters : list ascii) (new_letter : ascii)
  : bool :=
  mem Ascii.eqb new_letter used_letters
  || negb (has_key Ascii.eqb new_letter letter_to_words).

(** Lines 69-74: the [while] loop.  It runs at most 26 times, since
    [attempts] starts at 0 and grows by one each time round. *)
Fixpoint resample_loop (fuel : nat) (used_letters : list ascii)
    (new_letter : ascii) (attempts : Z) : M (ascii * Z) :=
  match fuel with
  | O => ret (new_letter, attempts)
  | S fuel' =>
      if unsuitable used_letters new_letter && (attempts <? 26) then
        new_letter <- sample_letter ;;
        resample_loop fuel' used_letters new_letter (attempts + 1)
      else ret (new_letter, attempts)
  end.

(** Lines 59-83: the [for] loop over the remaining slots; a [break]
    returns the words gathered so far. *)
Fixpoint fill_slots (slots : nat) (words_in_tuple : list string)
    (used_letters : list ascii) : M (list string) :=
  match slots with
  | O => ret words_in_tuple
  | S slots' =>
      new_letter <- sample_letter ;;
      '(new_letter, attempts) <-
        resample_loop 26 used_letters new_letter 0 ;;
      if attempts >=? 26 then _ <- abandon ;; ret words_in_tuple
      else
        bucket <- getitem Ascii.eqb letter_to_words new_letter ;;
        word <- choice bucket ;;
        fill_slots slots' (words_in_tuple ++ [word])
                   (set_insert Ascii.eqb new_letter used_letters)
  end.
End Tuple.

(** Lines 47-83: the words gathered for one requested tuple. *)
Definition gather_tuple (letters : list ascii) : M (list string) :=
  start_letter <- choice letters ;;
  start_index <- str_index ascii_lowercase start_letter ;;
  bucket <- getitem Ascii.eqb letter_to_words start_letter ;;
  first_word <- choice bucket ;;
  fill_slots start_index (Z.to_nat (tuple_size - 1))
             [first_word] [start_letter].

(** Lines 45-90: the loop over [range(count)]. *)
Fixpoint alphabetical_loop (letters : list ascii) (n : nat)
    (word_tuples : list word_tuple) : M (list word_tuple) :=
  match n with
  | O => ret word_tuples
  | S n' =>
      words_in_tuple <- gather_tuple letters ;;
      if Z.of_nat (List.length words_in_tuple) =? tuple_size
      then alphabetical_loop letters n' (word_tuples ++ [words_in_tuple])
      else alphabetical_loop letters n' word_tuples
  end.
End Alphabetical.

Definition generate_alphabetical_order_recall_words
    (difficulty_range : pyval) (count : Z) (tuple_size : Z)
  : M (list word_tuple) :=
  _ <- log (CallAlphabetical difficulty_range count tuple_size) ;;
  '(min_distance, max_distance) <- normalize_range difficulty_range ;;
  let letter_to_words := build_letter_to_words valid_words in
  let letters := sorted (keys letter_to_words) in
  word_tuples <-
    alphabetical_loop min_distance max_distance letter_to_words tuple_size
                      letters (Z.to_nat count) [] ;;
  _ <- log (Returned (List.length word_tuples)) ;;
  ret word_tuples.

(** Lines 139-153: the loop over [range(count)]; [break] when there is no
    prefix, [continue] when the bucket is too small. *)
Fixpoint sorting_loop (prefix_to_words : dict (K := string) (V := string))
    (prefixes : list string) (tuple_size : Z) (n : nat)
    (word_tuples : list word_tuple) : M (list word_tuple) :=
  match n with
  | O => ret word_tuples
  | S n' =>
      match prefixes with
      | [] => ret word_tuples
      | _ :: _ =>
          prefix <- choice prefixes ;;
          words_with_prefix <- getitem String.eqb prefix_to_words prefix ;;
          if Z.of_nat (List.length words_with_prefix) <? tuple_size
          then sorting_loop prefix_to_words prefixes tuple_size n' word_tuples
          else
            words_in_tuple <- sample words_with_prefix tuple_size ;;
            sorting_loop prefix_to_words prefixes tuple_size n'
                         (word_tuples ++ [words_in_tuple])
      end
  end.

Definition generate_sorting_algorithm_words
    (rank : Z) (count : Z) (tuple_size : Z) (min_prefix_length : Z)
  : M (list word_tuple) :=
  _ <- log (CallSorting rank count tuple_size) ;;
  word_tuples <-
    match valid_words with
    | [] => ret []
    | _ :: _ =>
        let diff_position := rank in
        let prefixes := build_prefixes valid_words diff_position in
        let prefix_to_words :=
          build_prefix_to_words valid_words diff_position
                                min_prefix_length prefixes in
        let prefixes := keys prefix_to_words in
        sorting_loop prefix_to_words prefixes tuple_size (Z.to_nat count) []
    end ;;
  _ <- log (Returned (List.length word_tuples)) ;;
  ret word_tuples.

(** Lines 178-190: the loop over [range(count)]. *)
Fixpoint mixed_loop (tuple_size : Z) (probability_goal1 total_probability : Q)
    (difficulty1 : pyval) (difficulty2 : Z) (n : nat)
    (word_tuples : list word_tuple) : M (list word_tuple) :=
  match n with
  | O => ret word_tuples
  | S n' =>
      r <- uniform 0 total_probability ;;
      if Qltb r probability_goal1 then
        tuples <- generate_alphabetical_order_recall_words
                    difficulty1 1 tuple_size ;;
        mixed_loop tuple_size probability_goal1 total_probability
                   difficulty1 difficulty2 n' (word_tuples ++ tuples)
      else
        tuples <- generate_sorting_algorithm_words
                    difficulty2 1 tuple_size 2 ;;
        match tuples with
        | _ :: _ =>
            mixed_loop tuple_size probability_goal1 total_probability
                       difficulty1 difficulty2 n' (word_tuples ++ tuples)
        | [] =>
            tuples <- generate_alphabetical_order_recall_words
                        difficulty1 1 tuple_size ;;
            mixed_loop tuple_size probability_goal1 total_probability
                       difficulty1 difficulty2 n' (word_tuples ++ tuples)
        end
  end.

Definition generate_word_tuples (count : Z) (tuple_size : Z)
    (probability_goal1 probability_goal2 : Q)
    (difficulty1 : pyval) (difficulty2 : Z) : M (list word_tuple) :=
  let total_probability := (probability_goal1 + probability_goal2)%Q in
  mixed_loop tuple_size probability_goal1 total_probability
             difficulty1 difficulty2 (Z.to_nat count) [].
End Generators.

(** * The vocabulary of the specification *)

(** [outcome m w P E]: run from [w], [m] either returns a value and a world
    satisfying [P], or raises an exception satisfying [E]. *)
Definition outcome {A} (m : M A) (w : world)
    (P : A -> world -> Prop) (E : exn -> world -> Prop) : Prop :=
  match m w with
  | (Ok a, w') => P a w'
  | (Raise e, w') => E e w'
  end.

(** No exception is raised. *)
Definition never : exn -> world -> Prop := fun _ _ => False.

(** The ghost fields of [w'] are those of [w]. *)
Definition same_ghost (w w' : world) : Prop :=
  trace w' = trace w /\ abandoned w' = abandoned w.

(** The world after the event [e] is recorded. *)
Definition logged (e : event) (w : world) : world :=
  mkWorld (draws w) (e :: trace w) (abandoned w).

(** Every bucket is non-empty and holds only values related to its key. *)
Definition buckets_hold {K V : Type} (P : K -> V -> Prop)
    (d : dict (K := K) (V := V)) : Prop :=
  forall k vs, In (k, vs) d -> vs <> [] /\ forall v, In v vs -> P k v.

(** The lower-cased starting letter of a word. *)
Definition first_letter (word : string) : option ascii :=
  match word with
  | EmptyString => None
  | String c _ => Some (lower_char c)
  end.

(** The position in the alphabet of a word's starting letter. *)
Definition letter_index (word : string) : option Z :=
  match first_letter word with
  | Some c => option_map Z.of_nat (find_char c ascii_lowercase)
  | None => None
  end.

(** The position at which two strings first differ, if they do; a string
    that ends where the other goes on differs from it there. *)
Fixpoint first_difference (a b : string) : option nat :=
  match a, b with
  | EmptyString, EmptyString => None
  | String x a', String y b' =>
      if Ascii.eqb x y then option_map S (first_difference a' b') else Some O
  | _, _ => Some O
  end.

(** The range of lines 30-33, as a function of the pair passed in. *)
Definition normalized (a b : Z) : Z * Z :=
  if Z.max 1 a >? Z.min 25 b
  then (Z.min 25 b, Z.max 1 a)
  else (Z.max 1 a, Z.min 25 b).

(** Letter [l] lies a sampled distance after position [start_index]. *)
Definition reached (lo hi start_index : Z) (l : ascii) : Prop :=
  exists d, lo <= d <= hi
            /\ find_char l ascii_lowercase
               = Some (Z.to_nat ((start_index + d) mod 26)).

(** What every gathered tuple satisfies: an anchor word first, starting
    letters pairwise distinct, and every other word a sampled distance
    after the anchor. *)
Definition good_tuple (lo hi : Z) (t : word_tuple) : Prop :=
  exists anchor rest ia,
    t = anchor :: rest
    /\ letter_index anchor = Some ia
    /\ 0 <= ia < 26
    /\ NoDup (map first_letter t)
    /\ forall word, In word rest ->
         exists iw d, letter_index word = Some iw
                      /\ lo <= d <= hi /\ iw = (ia + d) mod 26.

(** What the words gathered so far and the letters used so far satisfy
    while the slots of a tuple are filled. *)
Definition tuple_inv (lo hi start_index : Z) (wit : list string)
    (used : list ascii) : Prop :=
  wit <> []
  /\ map first_letter wit = map Some used
  /\ NoDup used
  /\ forall word, In word (tl wit) ->
       exists l, first_letter word = Some l /\ reached lo hi start_index l.

(** A tuple the loop appends to its result. *)
Definition emitted_ok (lo hi ts : Z) (t : word_tuple) : Prop :=
  good_tuple lo hi t /\ Z.of_nat (List.length t) = ts.

(** The letter that lines 61-65 (and 71-73) compute from the draw [x]. *)
Definition drawn_letter (lo hi start_index : Z) (x : N) : option ascii :=
  String.get
    (Z.to_nat ((start_index + (lo + Z.of_N x mod (hi - lo + 1))) mod 26))
    ascii_lowercase.

(** The draw [x] leads to a letter the [while] condition rejects. *)
Definition rejected (lo hi : Z) (ltw : dict (K := ascii) (V := string))
    (start_index : Z) (used : list ascii) (x : N) : Prop :=
  exists c, drawn_letter lo hi start_index x = Some c
            /\ unsuitable ltw used c = true.

(** The buckets [generate_sorting_algorithm_words] samples from. *)
Definition prefix_buckets (valid_words : list string)
    (rank min_prefix_length : Z) : dict (K := string) (V := string) :=
  build_prefix_to_words valid_words rank min_prefix_length
                        (build_prefixes valid_words rank).

(** How a word comes to lie in the bucket of [key]: by its own prefix of
    length [rank], or as a short stem that the key starts with. *)
Definition filed_under (rank min_prefix_length : Z) (prefixes : list string)
    (key word : string) : Prop :=
  (len word >= rank /\ key = slice_to (lower word) rank)
  \/ (len word < rank /\ len word > min_prefix_length
      /\ In key prefixes /\ startswith key (lower word) = true).

(** A tuple of [ts] words sampled from one bucket of [d]. *)
Definition drawn_from (d : dict (K := string) (V := string)) (ts : Z)
    (t : word_tuple) : Prop :=
  Z.of_nat (List.length t) = ts
  /\ exists key bucket,
       lookup String.eqb key d = Some bucket /\ incl t bucket.

(** The events of [n] complete rounds in which the prefix generator is
    called first and the alphabetical generator only after the prefix
    generator returned no tuple. *)
Inductive prefix_first_rounds (difficulty1 : pyval)
    (difficulty2 tuple_size : Z) : nat -> list event -> Prop :=
| rounds_done : prefix_first_rounds difficulty1 difficulty2 tuple_size O []
| round_prefix n k rest :
    prefix_first_rounds difficulty1 difficulty2 tuple_size n rest ->
    prefix_first_rounds difficulty1 difficulty2 tuple_size (S n)
      (CallSorting difficulty2 1 tuple_size :: Returned (S k) :: rest)
| round_fallback n k rest :
    prefix_first_rounds difficulty1 difficulty2 tuple_size n rest ->
    prefix_first_rounds difficulty1 difficulty2 tuple_size (S n)
      (CallSorting difficulty2 1 tuple_size :: Returned O
       :: CallAlphabetical difficulty1 1 tuple_size :: Returned k :: rest).

(** The events of a round cut short by an exception: raised by the prefix
    generator, or by the alphabetical generator called as the fallback. *)
Definition cut_short (difficulty1 : pyval) (difficulty2 tuple_size : Z)
    (tail : list event) : Prop :=
  tail = [CallSorting difficulty2 1 tuple_size]
  \/ tail = [CallSorting difficulty2 1 tuple_size; Returned O;
             CallAlphabetical difficulty1 1 tuple_size].

(** Some word of the list starts with a letter. *)
Definition some_word_starts_with_a_letter (valid_words : list string) : Prop :=
  exists word, In word valid_words /\ letter_index word <> None.

(** ** Further vocabulary: the indexes, the printed text *)

(** Any exception may be raised. *)
Definition anyhow : exn -> world -> Prop := fun _ _ => True.

(** [d.get(k, [])] *)
Definition bucket_of {K V : Type} (eqb : K -> K -> bool) (k : K)
    (d : dict (K := K) (V := V)) : list V :=
  match lookup eqb k d with
  | Some vs => vs
  | None => []
  end.

(** A dictionary built by [setdefault(k, []).append(v)] has a key exactly
    when the key has values. *)
Definition as_bucket {V : Type} (vs : list V) : option (list V) :=
  match vs with
  | [] => None
  | _ :: _ => Some vs
  end.

(** [d] has, for every key, the values of [ws] that [f] files under it,
    in the order of [ws]. *)
Definition represents {K V : Type} (eqb : K -> K -> bool)
    (f : K -> V -> bool) (d : dict (K := K) (V := V)) (ws : list V) : Prop :=
  forall k, lookup eqb k d = as_bucket (filter (f k) ws).

(** Lines 38-40, as a test: [word] is not empty and its lower-cased first
    character is the letter [l] of [string.ascii_lowercase]. *)
Definition starts_with_letter (l : ascii) (word : string) : bool :=
  match word with
  | EmptyString => false
  | String c _ => Ascii.eqb (lower_char c) l && char_in l ascii_lowercase
  end.

(** Lines 128-135, as a test: [word] is filed under [key]. *)
Definition files_under (rank min_prefix_length : Z) (prefixes : list string)
    (key word : string) : bool :=
  let word_lower := lower word in
  if len word_lower >=? rank then String.eqb (slice_to word_lower rank) key
  else (len word_lower >? min_prefix_length)
       && (mem String.eqb key prefixes && startswith key word_lower).

(** The letters are in ascending order of their codes, none twice. *)
Definition ascending (letters : list ascii) : Prop :=
  StronglySorted (fun a b => (N_of_ascii a < N_of_ascii b)%N) letters.






(** Every letter of the alphabet starts some word of the list. *)
Definition every_letter_has_a_word (valid_words : list string) : Prop :=
  forall l, char_in l ascii_lowercase = true ->
            exists word, In word valid_words
                         /\ starts_with_letter l word = true.


(** * Reasoning about computations *)

Lemma same_ghost_refl w : same_ghost w w.
Proof. split; reflexivity. Qed.

Lemma same_ghost_trans w1 w2 w3 :
  same_ghost w1 w2 -> same_ghost w2 w3 -> same_ghost w1 w3.
Proof. unfold same_ghost. intros [? ?] [? ?]. split; congruence. Qed.

#[local] Hint Resolve same_ghost_refl : core.

Lemma outcome_ret {A} (a : A) w (P : A -> world -> Prop) E :
  P a w -> outcome (ret a) w P E.
Proof. exact (fun H => H). Qed.

Lemma outcome_raise {A} e w (P : A -> world -> Prop) (E : exn -> world -> Prop) :
  E e w -> outcome (raise e) w P E.
Proof. exact (fun H => H). Qed.

Lemma outcome_bind {A B} (m : M A) (k : A -> M B) w P E :
  outcome m w (fun a w1 => outcome (k a) w1 P E) E ->
  outcome (bind m k) w P E.
Proof.
  unfold outcome, bind. destruct (m w) as [[a|e] w1]; auto.
Qed.

Lemma outcome_weaken {A} (m : M A) w (P P' : A -> world -> Prop)
    (E E' : exn -> world -> Prop) :
  outcome m w P E ->
  (forall a w', P a w' -> P' a w') ->
  (forall e w', E e w' -> E' e w') ->
  outcome m w P' E'.
Proof.
  unfold outcome. destruct (m w) as [[a|e] w1]; auto.
Qed.

Lemma outcome_ok {A} (m : M A) w P E a w' :
  outcome m w P E -> m w = (Ok a, w') -> P a w'.
Proof. unfold outcome. intros H Hm. rewrite Hm in H. exact H. Qed.

Lemma outcome_never {A} (m : M A) w P :
  outcome m w P never -> exists a w', m w = (Ok a, w') /\ P a w'.
Proof.
  unfold outcome, never. destruct (m w) as [[a|e] w1]; [eauto | tauto].
Qed.

Lemma run_ok {A} (m : M A) rng P E a :
  outcome m (start rng) P E -> run m rng = Ok a ->
  P a (snd (m (start rng))).
Proof.
  unfold outcome, run. destruct (m (start rng)) as [[x|e] w1]; simpl;
    intros H Hr; [congruence | discriminate].
Qed.

Lemma outcome_raised {A} (m : M A) w P E e w' :
  outcome m w P E -> m w = (Raise e, w') -> E e w'.
Proof. unfold outcome. intros H Hm. rewrite Hm in H. exact H. Qed.

(** ** The primitives *)

Lemma draw_spec w E :
  outcome draw w (fun _ w' => same_ghost w w') E.
Proof.
  unfold outcome, draw. destruct (draws w); simpl; split; reflexivity.
Qed.

Lemma randbelow_spec n w E :
  outcome (randbelow n) w
    (fun i w' => same_ghost w w' /\ (n <> 0 -> i < n)%nat) E.
Proof.
  unfold randbelow. apply outcome_bind.
  eapply outcome_weaken; [apply draw_spec with (E := E) | | auto].
  intros x w' Hg. apply outcome_ret. split; [exact Hg|].
  intros Hn. apply Nat.mod_upper_bound. exact Hn.
Qed.

Lemma choice_spec {A} (seq : list A) w :
  outcome (choice seq) w
    (fun x w' => same_ghost w w' /\ In x seq)
    (fun e w' => seq = [] /\ e = IndexError /\ w' = w).
Proof.
  destruct seq as [|a seq]; [apply outcome_raise; auto|].
  unfold choice. apply outcome_bind.
  eapply outcome_weaken; [apply randbelow_spec with (E := never) | | intros ? ? []].
  intros i w' [Hg Hi]. cbv beta.
  destruct (nth_error (a :: seq) i) as [x|] eqn:Hx.
  - apply outcome_ret. split; [exact Hg|]. eapply nth_error_In; eauto.
  - exfalso. apply nth_error_None in Hx.
    assert (i < List.length (a :: seq))%nat by (apply Hi; discriminate). lia.
Qed.

Lemma randint_spec a b w :
  outcome (randint a b) w
    (fun d w' => same_ghost w w' /\ a <= d <= b)
    (fun e w' => b < a /\ w' = w).
Proof.
  unfold randint. destruct (Z.ltb_spec b a) as [Hlt|Hle].
  - apply outcome_raise. auto.
  - apply outcome_bind.
    eapply outcome_weaken; [apply draw_spec with (E := never) | | intros ? ? []].
    intros x w' Hg. apply outcome_ret. split; [exact Hg|].
    pose proof (Z.mod_pos_bound (Z.of_N x) (b - a + 1)). lia.
Qed.

Lemma remove_nth_length {A} (l : list A) : forall i,
  (i < List.length l)%nat ->
  List.length (remove_nth i l) = pred (List.length l).
Proof.
  induction l as [|x l IH]; intros i Hi; simpl in *; [lia|].
  destruct i; [reflexivity|]. simpl. rewrite IH by lia. lia.
Qed.

Lemma remove_nth_incl {A} (l : list A) : forall i, incl (remove_nth i l) l.
Proof.
  induction l as [|x l IH]; intros i y Hy; [destruct i; exact Hy|].
  destruct i; simpl in *; [right; exact Hy|].
  destruct Hy as [->|Hy]; [left; reflexivity | right; eapply IH; eauto].
Qed.

Lemma sample_loop_spec {A} (k : nat) : forall (pool : list A) w,
  (k <= List.length pool)%nat ->
  outcome (sample_loop k pool) w
    (fun t w' => same_ghost w w' /\ List.length t = k /\ incl t pool) never.
Proof.
  induction k as [|k IH]; intros pool w Hk; simpl.
  - apply outcome_ret. repeat split; auto. intros x [].
  - apply outcome_bind.
    eapply outcome_weaken; [apply randbelow_spec with (E := never) | | auto].
    intros i w1 [Hg Hi]. cbv beta.
    assert (Hlt : (i < List.length pool)%nat) by (apply Hi; lia).
    destruct (nth_error pool i) as [x|] eqn:Hx;
      [| apply nth_error_None in Hx; lia].
    apply outcome_bind.
    eapply outcome_weaken;
      [apply IH; rewrite remove_nth_length by exact Hlt; lia | | auto].
    intros rest w2 (Hg2 & Hlen & Hincl). cbv beta. apply outcome_ret.
    split; [eapply same_ghost_trans; eauto|]. split; [simpl; congruence|].
    intros y [<-|Hy]; [eapply nth_error_In; eauto|].
    eapply remove_nth_incl, Hincl, Hy.
Qed.

Lemma sample_spec {A} (population : list A) (k : Z) w :
  outcome (sample population k) w
    (fun t w' => same_ghost w w' /\ Z.of_nat (List.length t) = k
                 /\ incl t population)
    (fun e w' => e = ValueError
                 /\ (k < 0 \/ Z.of_nat (List.length population) < k)
                 /\ w' = w).
Proof.
  unfold sample.
  destruct (Z.ltb_spec k 0) as [Hneg|Hpos]; simpl;
    [apply outcome_raise; auto|].
  destruct (Z.ltb_spec (Z.of_nat (List.length population)) k) as [Hbig|Hfit];
    [apply outcome_raise; auto|].
  eapply outcome_weaken; [apply sample_loop_spec; lia | | intros ? ? []].
  intros t w' (Hg & Hlen & Hincl). repeat split; try apply Hg; auto. lia.
Qed.

(** ** Dictionaries *)

Section DictFacts.
Context {K V : Type}.
Variable eqb : K -> K -> bool.
Hypothesis eqb_eq : forall a b, eqb a b = true <-> a = b.

Lemma buckets_hold_nil (P : K -> V -> Prop) : buckets_hold P [].
Proof. intros k vs []. Qed.

Lemma setdefault_append_hold P k v (d : dict (K := K) (V := V)) :
  buckets_hold P d -> P k v -> buckets_hold P (setdefault_append eqb k v d).
Proof.
  intros Hd Hkv. induction d as [|[k' vs'] d IH]; simpl.
  - intros k0 vs [Heq|[]]. inversion Heq; subst. split; [discriminate|].
    intros v0 [<-|[]]. exact Hkv.
  - assert (Hd' : buckets_hold P d)
      by (intros k0 vs0 Hin; apply Hd; right; exact Hin).
    destruct (eqb k k') eqn:Hk.
    + apply eqb_eq in Hk. subst k'.
      intros k0 vs [Heq|Hin]; [|apply Hd; right; exact Hin].
      inversion Heq; subst. split; [intros Habs; destruct vs'; discriminate|].
      intros v0 Hv0. apply in_app_or in Hv0. destruct Hv0 as [Hv0|[<-|[]]];
        [|exact Hkv].
      eapply (Hd k0 vs'); [left; reflexivity | exact Hv0].
    + intros k0 vs [Heq|Hin]; [apply Hd; left; exact Heq|].
      apply (IH Hd'). exact Hin.
Qed.

Lemma lookup_In k vs (d : dict (K := K) (V := V)) :
  lookup eqb k d = Some vs -> In (k, vs) d.
Proof.
  induction d as [|[k' vs'] d IH]; simpl; [discriminate|].
  destruct (eqb k k') eqn:Hk.
  - apply eqb_eq in Hk. subst. intros [= ->]. left; reflexivity.
  - intros H. right. apply IH, H.
Qed.

Lemma keys_lookup k (d : dict (K := K) (V := V)) :
  In k (keys d) -> exists vs, lookup eqb k d = Some vs.
Proof.
  induction d as [|[k' vs'] d IH]; simpl; [tauto|].
  intros [->|Hin].
  - assert (Hk : eqb k k = true) by (apply eqb_eq; reflexivity).
    rewrite Hk. eauto.
  - destruct (eqb k k'); [eauto | apply IH, Hin].
Qed.

Lemma lookup_keys k vs (d : dict (K := K) (V := V)) :
  lookup eqb k d = Some vs -> In k (keys d).
Proof.
  intros H. apply lookup_In in H. apply (in_map fst) in H. exact H.
Qed.

Lemma keys_setdefault_append k v (d : dict (K := K) (V := V)) k0 :
  In k0 (keys (setdefault_append eqb k v d)) <-> k0 = k \/ In k0 (keys d).
Proof.
  induction d as [|[k' vs'] d IH]; simpl.
  - intuition auto.
  - destruct (eqb k k') eqn:Hk; simpl.
    + apply eqb_eq in Hk. subst. intuition auto.
    + rewrite IH. intuition auto.
Qed.

Lemma getitem_spec (d : dict (K := K) (V := V)) k w :
  outcome (getitem eqb d k) w
    (fun vs w' => w' = w /\ lookup eqb k d = Some vs)
    (fun e w' => lookup eqb k d = None /\ w' = w).
Proof.
  unfold getitem. destruct (lookup eqb k d);
    [apply outcome_ret; auto | apply outcome_raise; auto].
Qed.
End DictFacts.

Lemma ascii_eqb_eq (a b : ascii) : Ascii.eqb a b = true <-> a = b.
Proof. apply Ascii.eqb_eq. Qed.

Lemma string_eqb_eq (a b : string) : String.eqb a b = true <-> a = b.
Proof. apply String.eqb_eq. Qed.

Lemma mem_In {A} (eqb : A -> A -> bool)
    (eqb_eq : forall a b, eqb a b = true <-> a = b) x s :
  mem eqb x s = true <-> In x s.
Proof.
  unfold mem. rewrite existsb_exists. split.
  - intros (y & Hin & Hy). apply eqb_eq in Hy. subst. exact Hin.
  - intros Hin. exists x. split; [exact Hin | apply eqb_eq; reflexivity].
Qed.

Lemma insert_sorted_In c l x :
  In x (insert_sorted c l) <-> x = c \/ In x l.
Proof.
  induction l as [|c' l IH]; simpl; [intuition auto|].
  destruct (N_of_ascii c <=? N_of_ascii c')%N; simpl;
    [|rewrite IH]; intuition auto.
Qed.

Lemma sorted_In l x : In x (sorted l) <-> In x l.
Proof.
  induction l as [|c l IH]; simpl; [tauto|].
  rewrite insert_sorted_In, IH. intuition auto.
Qed.

(** ** Letters *)

Lemma char_in_find c s :
  char_in c s = true -> exists i, find_char c s = Some i.
Proof.
  induction s as [|c' s IH]; simpl; [discriminate|].
  destruct (Ascii.eqb c c'); simpl; [eauto|].
  intros H. destruct (IH H) as [i ->]. eauto.
Qed.

Lemma find_char_bound c s i :
  find_char c s = Some i -> (i < String.length s)%nat.
Proof.
  revert i. induction s as [|c' s IH]; simpl; intros i; [discriminate|].
  destruct (Ascii.eqb c c'); [intros [= <-]; lia|].
  destruct (find_char c s) as [j|]; [|discriminate].
  intros [= <-]. specialize (IH j eq_refl). lia.
Qed.

Lemma alphabet_get (n : nat) :
  (n < 26)%nat ->
  exists c, String.get n ascii_lowercase = Some c
            /\ find_char c ascii_lowercase = Some n.
Proof.
  intros Hn.
  do 26 (destruct n as [|n]; [eexists; split; reflexivity|]). lia.
Qed.

Lemma str_getitem_alphabet (i : Z) w :
  0 <= i < 26 ->
  outcome (str_getitem ascii_lowercase i) w
    (fun c w' => w' = w /\ find_char c ascii_lowercase = Some (Z.to_nat i))
    never.
Proof.
  intros Hi. unfold str_getitem.
  destruct (Z.ltb_spec i 0) as [?|_]; [lia|].
  destruct (alphabet_get (Z.to_nat i)) as (c & Hget & Hfind); [lia|].
  rewrite Hget. apply outcome_ret. auto.
Qed.

Lemma build_letter_to_words_hold valid_words :
  buckets_hold
    (fun k word => first_letter word = Some k
                   /\ char_in k ascii_lowercase = true)
    (build_letter_to_words valid_words).
Proof.
  unfold build_letter_to_words.
  generalize (buckets_hold_nil (K := ascii) (V := string)
    (fun k word => first_letter word = Some k
                   /\ char_in k ascii_lowercase = true)).
  generalize (@nil (ascii * list string)).
  induction valid_words as [|word ws IH]; intros d Hd; cbn [fold_left];
    [exact Hd|].
  apply IH. destruct word as [|c word]; [exact Hd|].
  unfold file_by_letter. cbv zeta.
  destruct (char_in (lower_char c) ascii_lowercase) eqn:Hc; [|exact Hd].
  apply setdefault_append_hold; auto using ascii_eqb_eq.
Qed.

(** * The alphabetical-order generator *)

Lemma normalize_range_pair a b w :
  normalize_range (PyTuple [a; b]) w = (Ok (normalized a b), w).
Proof.
  unfold normalize_range, normalized, bind, unpack2, ret.
  destruct (Z.max 1 a >? Z.min 25 b); reflexivity.
Qed.

Lemma normalized_ordered a b : fst (normalized a b) <= snd (normalized a b).
Proof.
  unfold normalized.
  destruct (Z.gtb_spec (Z.max 1 a) (Z.min 25 b)); simpl; lia.
Qed.

Lemma normalized_in_band a b :
  1 <= a -> a <= b -> b <= 25 -> normalized a b = (a, b).
Proof.
  intros. unfold normalized.
  destruct (Z.gtb_spec (Z.max 1 a) (Z.min 25 b)); [lia|].
  f_equal; lia.
Qed.

Section AlphabeticalFacts.
Variables lo hi : Z.
Variable ltw : dict (K := ascii) (V := string).
Variable ts : Z.
Hypothesis Hrange : lo <= hi.
Hypothesis Hltw :
  buckets_hold
    (fun k word => first_letter word = Some k
                   /\ char_in k ascii_lowercase = true) ltw.

Section TupleFacts.
Variable si : Z.

Lemma sample_letter_spec w :
  outcome (sample_letter lo hi si) w
    (fun l w' => same_ghost w w' /\ reached lo hi si l) never.
Proof.
  unfold sample_letter. apply outcome_bind.
  eapply outcome_weaken; [apply randint_spec | | intros e w' [? _]; lia].
  intros d w1 [Hg Hd]. cbv beta.
  eapply outcome_weaken;
    [apply str_getitem_alphabet; apply Z.mod_pos_bound; lia | | auto].
  intros c w' [-> Hf]. split; [exact Hg|]. exists d. auto.
Qed.

Lemma resample_loop_spec used : forall fuel l a w,
  reached lo hi si l -> 26 <= Z.of_nat fuel + a ->
  outcome (resample_loop lo hi ltw si fuel used l a) w
    (fun r w' => same_ghost w w' /\ a <= snd r
                 /\ reached lo hi si (fst r)
                 /\ (snd r < 26 -> unsuitable ltw used (fst r) = false))
    never.
Proof.
  induction fuel as [|fuel IH]; intros l a w Hl Hfuel; simpl.
  - apply outcome_ret. simpl. repeat split; auto; lia.
  - destruct (unsuitable ltw used l) eqn:Hu; simpl.
    + destruct (Z.ltb_spec a 26) as [Hlt|Hge].
      * apply outcome_bind.
        eapply outcome_weaken; [apply sample_letter_spec | | auto].
        intros l' w1 [Hg Hl']. cbv beta.
        eapply outcome_weaken; [apply IH; [exact Hl' | lia] | | auto].
        intros r w' (Hg' & Ha & Hr & Hs).
        split; [eapply same_ghost_trans; eauto|].
        repeat split; auto; lia.
      * apply outcome_ret. simpl. repeat split; auto; lia.
    + apply outcome_ret. simpl. repeat split; auto; lia.
Qed.

Lemma tuple_inv_snoc wit used word l :
  tuple_inv lo hi si wit used -> first_letter word = Some l ->
  reached lo hi si l -> ~ In l used ->
  tuple_inv lo hi si (wit ++ [word]) (used ++ [l]).
Proof.
  intros (Hne & Hmap & Hnd & Htl) Hw Hl Hnew. repeat split.
  - destruct wit; discriminate.
  - rewrite !map_app, Hmap. simpl. rewrite Hw. reflexivity.
  - apply NoDup_app; [exact Hnd | repeat constructor; auto |].
    intros x Hx [<-|[]]. auto.
  - intros word0 Hin. destruct wit as [|a wit]; [congruence|].
    simpl in Hin. apply in_app_or in Hin. destruct Hin as [Hin|[<-|[]]].
    + apply Htl. exact Hin.
    + eauto.
Qed.

Lemma fill_slots_spec : forall slots wit used w,
  tuple_inv lo hi si wit used ->
  outcome (fill_slots lo hi ltw si slots wit used) w
    (fun r w' =>
       trace w' = trace w
       /\ (exists extra, r = wit ++ extra)
       /\ (exists used', tuple_inv lo hi si r used')
       /\ ((List.length r = List.length wit + slots
            /\ abandoned w' = abandoned w)
           \/ (List.length r < List.length wit + slots
               /\ abandoned w' = S (abandoned w)))%nat)
    never.
Proof.
  induction slots as [|slots IH]; intros wit used w Hinv; simpl.
  - apply outcome_ret. split; [reflexivity|].
    split; [exists []; symmetry; apply app_nil_r|]. split; [eauto|].
    left. split; [lia | reflexivity].
  - apply outcome_bind.
    eapply outcome_weaken; [apply sample_letter_spec | | auto].
    intros l0 w1 [Hg1 Hl0]. cbv beta. apply outcome_bind.
    eapply outcome_weaken;
      [apply (resample_loop_spec used 26 l0 0 w1 Hl0); lia | | auto].
    intros [l a] w2 (Hg2 & _ & Hl & Hs). simpl in Hl, Hs. cbv beta iota.
    rewrite Z.geb_leb. destruct (Z.leb_spec 26 a) as [Hbreak|Hgo].
    + unfold outcome, bind, abandon, ret. simpl.
      destruct Hg1 as [Ht1 Ha1], Hg2 as [Ht2 Ha2].
      split; [congruence|]. split; [exists []; symmetry; apply app_nil_r|].
      split; [eauto|]. right. split; [lia|congruence].
    + specialize (Hs Hgo). unfold unsuitable in Hs.
      apply orb_false_iff in Hs. destruct Hs as [Hmem Hkey].
      apply negb_false_iff in Hkey. unfold has_key in Hkey.
      destruct (lookup Ascii.eqb l ltw) as [bucket|] eqn:Hlook;
        [|discriminate].
      pose proof (lookup_In Ascii.eqb ascii_eqb_eq _ _ _ Hlook) as Hin.
      destruct (Hltw _ _ Hin) as [Hne Hbucket].
      apply outcome_bind.
      eapply outcome_weaken;
        [apply (getitem_spec Ascii.eqb) | | intros e w' [? _]; congruence].
      intros vs w3 [-> Hvs]. rewrite Hlook in Hvs. inversion Hvs; subst vs.
      cbv beta. apply outcome_bind.
      eapply outcome_weaken;
        [apply choice_spec | | intros e w' [? _]; congruence].
      intros word w3 [Hg3 Hword]. cbv beta.
      assert (Hnot : ~ In l used).
      { intros Habs. apply (mem_In Ascii.eqb ascii_eqb_eq) in Habs.
        congruence. }
      unfold set_insert. rewrite Hmem.
      eapply outcome_weaken;
        [apply IH; apply tuple_inv_snoc; eauto; apply Hbucket, Hword
        | | auto].
      intros r w' (Ht & [extra Hex] & Hu & Hlen).
      rewrite length_app in Hlen. simpl in Hlen.
      destruct Hg1 as [Ht1 Ha1], Hg2 as [Ht2 Ha2], Hg3 as [Ht3 Ha3].
      split; [congruence|].
      split; [exists ([word] ++ extra); rewrite app_assoc; exact Hex|].
      split; [exact Hu|].
      destruct Hlen as [[? ?]|[? ?]]; [left | right]; split; try lia;
        congruence.
Qed.
End TupleFacts.
End AlphabeticalFacts.

Lemma NoDup_map_Some {A} (l : list A) : NoDup l -> NoDup (map Some l).
Proof.
  induction 1 as [|x l Hx Hnd IH]; simpl; constructor; auto.
  rewrite in_map_iff. intros (y & [= ->] & Hy). auto.
Qed.

Lemma tuple_inv_good lo hi si anchor rest used :
  tuple_inv lo hi si (anchor :: rest) used ->
  letter_index anchor = Some si -> 0 <= si < 26 ->
  good_tuple lo hi (anchor :: rest).
Proof.
  intros (_ & Hmap & Hnd & Htl) Hanchor Hsi.
  exists anchor, rest, si. repeat split; auto; try lia.
  - rewrite Hmap. apply NoDup_map_Some, Hnd.
  - intros word Hin. destruct (Htl word Hin) as (l & Hl & d & Hd & Hfind).
    exists ((si + d) mod 26), d. split; [|auto].
    unfold letter_index. rewrite Hl, Hfind. simpl. f_equal.
    apply Z2Nat.id. apply Z.mod_pos_bound. lia.
Qed.

Section AlphabeticalLoopFacts.
Variables lo hi : Z.
Variable ltw : dict (K := ascii) (V := string).
Variable ts : Z.
Variable letters : list ascii.
Hypothesis Hrange : lo <= hi.
Hypothesis Hltw :
  buckets_hold
    (fun k word => first_letter word = Some k
                   /\ char_in k ascii_lowercase = true) ltw.
Hypothesis Hletters : forall l, In l letters -> In l (keys ltw).

Lemma gather_tuple_spec w :
  outcome (gather_tuple lo hi ltw ts letters) w
    (fun r w' =>
       trace w' = trace w
       /\ good_tuple lo hi r
       /\ ((List.length r = 1 + Z.to_nat (ts - 1)
            /\ abandoned w' = abandoned w)
           \/ (List.length r < 1 + Z.to_nat (ts - 1)
               /\ abandoned w' = S (abandoned w)))%nat)
    (fun e w' => letters = [] /\ e = IndexError /\ w' = w).
Proof.
  unfold gather_tuple. apply outcome_bind.
  eapply outcome_weaken; [apply choice_spec | | auto].
  intros start_letter w1 [Hg1 Hstart]. cbv beta.
  destruct (keys_lookup Ascii.eqb ascii_eqb_eq _ _ (Hletters _ Hstart))
    as [bucket Hlook].
  pose proof (lookup_In Ascii.eqb ascii_eqb_eq _ _ _ Hlook) as Hin.
  destruct (Hltw _ _ Hin) as [Hne Hbucket].
  assert (Hchar : char_in start_letter ascii_lowercase = true).
  { destruct bucket as [|word bucket]; [congruence|].
    apply (Hbucket word). left; reflexivity. }
  destruct (char_in_find _ _ Hchar) as [i Hi].
  pose proof (find_char_bound _ _ _ Hi) as Hbound.
  change (String.length ascii_lowercase) with 26%nat in Hbound.
  apply outcome_bind. unfold str_index at 1. rewrite Hi. apply outcome_ret.
  apply outcome_bind.
  eapply outcome_weaken;
    [apply (getitem_spec Ascii.eqb) | | intros e w' [? _]; congruence].
  intros vs w2 [-> Hvs]. rewrite Hlook in Hvs. inversion Hvs; subst vs.
  cbv beta. apply outcome_bind.
  eapply outcome_weaken;
    [apply choice_spec | | intros e w' [? _]; congruence].
  intros first_word w2 [Hg2 Hfirst]. cbv beta.
  destruct (Hbucket _ Hfirst) as [Hletter _].
  assert (Hinv : tuple_inv lo hi (Z.of_nat i) [first_word] [start_letter]).
  { repeat split.
    - discriminate.
    - simpl. rewrite Hletter. reflexivity.
    - repeat constructor. intros [].
    - intros word []. }
  eapply outcome_weaken;
    [apply (fill_slots_spec lo hi ltw Hrange Hltw); exact Hinv
    | | intros ? ? []].
  intros r w' (Ht & [extra ->] & [used' Hu] & Hlen).
  destruct Hg1 as [Ht1 Ha1], Hg2 as [Ht2 Ha2].
  split; [congruence|]. split.
  - eapply tuple_inv_good; [exact Hu | | lia].
    unfold letter_index. rewrite Hletter, Hi. reflexivity.
  - cbn [List.length app] in *.
    destruct Hlen as [[? ?]|[? ?]]; [left|right]; split;
      solve [lia | congruence].
Qed.

Lemma alphabetical_loop_spec : forall n acc w,
  Forall (emitted_ok lo hi ts) acc ->
  outcome (alphabetical_loop lo hi ltw ts letters n acc) w
    (fun out w' =>
       trace w' = trace w
       /\ Forall (emitted_ok lo hi ts) out
       /\ (List.length out <= List.length acc + n)%nat
       /\ (1 <= ts ->
           (List.length out + abandoned w'
            = List.length acc + abandoned w + n)%nat))
    (fun e w' => letters = [] /\ e = IndexError /\ n <> O
                 /\ trace w' = trace w).
Proof.
  induction n as [|n IH]; intros acc w Hacc; simpl.
  - apply outcome_ret. repeat split; auto; lia.
  - apply outcome_bind.
    eapply outcome_weaken;
      [apply gather_tuple_spec | | intros e w' (? & ? & ->); auto].
    intros r w1 (Ht1 & Hgood & Hlen). cbv beta.
    destruct (Z.eqb_spec (Z.of_nat (List.length r)) ts) as [Heq|Hne].
    + eapply outcome_weaken;
        [apply IH; apply Forall_app; split;
           [exact Hacc | repeat constructor; auto]
        | | intros e w' (? & ? & ? & ?); repeat split; auto; congruence].
      intros out w' (Ht & Hout & Hle & Hcount). rewrite length_app in *.
      simpl in *. split; [congruence|]. split; [exact Hout|].
      split; [lia|]. intros Hts. specialize (Hcount Hts).
      destruct Hlen as [[_ Ha]|[Hshort _]]; lia.
    + eapply outcome_weaken;
        [apply IH; exact Hacc
        | | intros e w' (? & ? & ? & ?); repeat split; auto; congruence].
      intros out w' (Ht & Hout & Hle & Hcount).
      split; [congruence|]. split; [exact Hout|].
      split; [lia|]. intros Hts. specialize (Hcount Hts).
      destruct Hlen as [[Hfull _]|[_ Ha]]; lia.
Qed.
End AlphabeticalLoopFacts.

Lemma sorted_nil l : sorted l = [] -> l = [].
Proof.
  destruct l as [|c l]; [reflexivity|]. intros H.
  assert (Hin : In c (sorted (c :: l))) by (apply sorted_In; left; reflexivity).
  rewrite H in Hin. destruct Hin.
Qed.

Lemma alphabetical_spec valid_words a b count ts w :
  outcome
    (generate_alphabetical_order_recall_words valid_words (PyTuple [a; b])
                                              count ts) w
    (fun out w' =>
       Forall (emitted_ok (fst (normalized a b)) (snd (normalized a b)) ts) out
       /\ (List.length out <= Z.to_nat count)%nat
       /\ (1 <= ts ->
           (List.length out + abandoned w'
            = abandoned w + Z.to_nat count)%nat)
       /\ trace w' = Returned (List.length out)
                     :: CallAlphabetical (PyTuple [a; b]) count ts :: trace w)
    (fun e w' =>
       keys (build_letter_to_words valid_words) = [] /\ e = IndexError
       /\ 0 < count
       /\ trace w' = CallAlphabetical (PyTuple [a; b]) count ts :: trace w).
Proof.
  unfold generate_alphabetical_order_recall_words.
  apply outcome_bind. unfold log at 1. unfold outcome at 1.
  apply outcome_bind. unfold outcome at 1.
  rewrite normalize_range_pair.
  destruct (normalized a b) as [lo hi] eqn:Hn.
  pose proof (normalized_ordered a b) as Hord. rewrite Hn in Hord.
  simpl in Hord. cbn [fst snd]. apply outcome_bind.
  eapply outcome_weaken.
  - apply (alphabetical_loop_spec lo hi (build_letter_to_words valid_words) ts
             (sorted (keys (build_letter_to_words valid_words))) Hord
             (build_letter_to_words_hold valid_words)).
    + intros l Hl. apply sorted_In. exact Hl.
    + constructor.
  - intros out w' (Ht & Hout & Hle & Hcount). cbv beta.
    unfold outcome, bind, log, ret. simpl in *.
    repeat split; auto; try lia. congruence.
  - intros e w' (Hnil & -> & Hcnt & Ht). simpl in Ht.
    split; [apply sorted_nil, Hnil|]. repeat split; auto. lia.
Qed.

Lemma alphabetical_needs_pair valid_words difficulty_range count ts w out w' :
  generate_alphabetical_order_recall_words valid_words difficulty_range
                                           count ts w = (Ok out, w') ->
  exists a b, difficulty_range = PyTuple [a; b].
Proof.
  destruct difficulty_range as [z|[|a [|b [|c l]]]];
    try (unfold generate_alphabetical_order_recall_words, bind, log,
           normalize_range, unpack2, raise; simpl; discriminate).
  eauto.
Qed.

(** * The claims about the alphabetical-order generator *)

(** C4.  For a difficulty range [(lo, hi)] with [1 <= lo <= hi <= 25], every
    tuple the alphabetical-order generator emits starts with an anchor word,
    and for each other word of the tuple the circular distance
    [(index_other - index_anchor) mod 26] between the positions of the
    starting letters lies in [[lo, hi]]. *)
Theorem alphabetical_distances_in_range
    (valid_words : list string) (lo hi count tuple_size : Z)
    (rng : list N) (out : list word_tuple) (t : word_tuple) :
  1 <= lo -> lo <= hi -> hi <= 25 ->
  run (generate_alphabetical_order_recall_words
         valid_words (PyTuple [lo; hi]) count tuple_size) rng = Ok out ->
  In t out ->
  exists anchor rest ia,
    t = anchor :: rest
    /\ letter_index anchor = Some ia
    /\ forall word, In word rest ->
         exists iw, letter_index word = Some iw
                    /\ lo <= (iw - ia) mod 26 <= hi.
Proof.
  intros Hlo Hle Hhi Hrun Hin.
  pose proof (run_ok _ _ _ _ _
                (alphabetical_spec valid_words lo hi count tuple_size
                                   (start rng)) Hrun) as (Hall & _).
  rewrite normalized_in_band in Hall by assumption. simpl in Hall.
  rewrite Forall_forall in Hall.
  destruct (Hall t Hin) as [(anchor & rest & ia & -> & Hia & Hb & _ & Hrest) _].
  exists anchor, rest, ia. repeat split; auto.
  intros word Hword. destruct (Hrest word Hword) as (iw & d & Hiw & Hd & ->).
  exists ((ia + d) mod 26). split; [exact Hiw|].
  rewrite Zminus_mod_idemp_l.
  replace (ia + d - ia) with d by lia.
  rewrite Z.mod_small by lia. exact Hd.
Qed.

Lemma alphabetical_distances_in_range_witness :
  exists anchor rest ia,
    ["apple"; "banana"] = anchor :: rest
    /\ letter_index anchor = Some ia
    /\ forall word, In word rest ->
         exists iw, letter_index word = Some iw
                    /\ 1 <= (iw - ia) mod 26 <= 1.
Proof.
  apply (alphabetical_distances_in_range
           ["apple"; "avocado"; "banana"; "blueberry"; "cherry"]
           1 1 1 2 [0; 0; 0]%N [["apple"; "banana"]]);
    [lia | lia | lia | reflexivity | left; reflexivity].
Defined.

(** C5.  The range normalisation of lines 29-33 does not keep both
    endpoints in [[1, 25]]: only the lower endpoint is raised to 1 and only
    the upper one is lowered to 25 before the swap, so [(30, 40)] becomes
    [(25, 30)] and [(-5, -3)] becomes [(-3, 1)]. *)
Theorem normalize_range_leaves_band (rng : list N) :
  run (normalize_range (PyTuple [30; 40])) rng = Ok (25, 30)
  /\ run (normalize_range (PyTuple [-5; -3])) rng = Ok (-3, 1).
Proof. split; reflexivity. Qed.

(** The part of C5 the code does establish: the endpoints are ordered. *)
Lemma normalize_range_ordered a b rng :
  exists lo hi, run (normalize_range (PyTuple [a; b])) rng = Ok (lo, hi)
                /\ lo <= hi.
Proof.
  unfold run. rewrite normalize_range_pair. simpl.
  exists (fst (normalized a b)), (snd (normalized a b)).
  split; [destruct (normalized a b); reflexivity | apply normalized_ordered].
Qed.

(** C6.  Every tuple the alphabetical-order generator emits has exactly
    [tuple_size] words, each starting with a letter, and the lower-cased
    starting letters are pairwise distinct.  A letter search that is given
    up discards its tuple: for [tuple_size >= 1] each of the [count] rounds
    either emits one full tuple or gives up one search, so no shorter tuple
    is emitted. *)
Theorem alphabetical_tuples_full_and_distinct
    (valid_words : list string) (difficulty_range : pyval)
    (count tuple_size : Z) (rng : list N) (out : list word_tuple) :
  run (generate_alphabetical_order_recall_words
         valid_words difficulty_range count tuple_size) rng = Ok out ->
  (forall t, In t out ->
     Z.of_nat (List.length t) = tuple_size
     /\ NoDup (map first_letter t)
     /\ forall word, In word t -> first_letter word <> None)
  /\ (1 <= tuple_size ->
      (List.length out
       + given_up (generate_alphabetical_order_recall_words
                     valid_words difficulty_range count tuple_size) rng
       = Z.to_nat count)%nat).
Proof.
  intros Hrun.
  assert (Hpair : exists a b, difficulty_range = PyTuple [a; b]).
  { unfold run in Hrun.
    destruct (generate_alphabetical_order_recall_words _ _ _ _ (start rng))
      as [[o|e] w'] eqn:Hg; simpl in Hrun; [|discriminate].
    eapply alphabetical_needs_pair; eauto. }
  destruct Hpair as (a & b & ->).
  pose proof (run_ok _ _ _ _ _
                (alphabetical_spec valid_words a b count tuple_size
                                   (start rng)) Hrun)
    as (Hall & _ & Hcount & _).
  split; [|intros Hts; apply Hcount, Hts].
  intros t Hin. rewrite Forall_forall in Hall.
  destruct (Hall t Hin)
    as [(anchor & rest & ia & -> & Hia & _ & Hnd & Hrest) Hlen].
  split; [exact Hlen|]. split; [exact Hnd|].
  intros word [<-|Hw] Hnone; unfold letter_index in *.
  - rewrite Hnone in Hia. discriminate.
  - destruct (Hrest word Hw) as (iw & d & Hiw & _).
    rewrite Hnone in Hiw. discriminate.
Qed.

Lemma alphabetical_tuples_full_and_distinct_witness :
  (forall t, In t [["apple"; "banana"]; ["banana"; "cherry"]] ->
     Z.of_nat (List.length t) = 2
     /\ NoDup (map first_letter t)
     /\ forall word, In word t -> first_letter word <> None)
  /\ (1 <= 2 ->
      Nat.add
        (List.length [["apple"; "banana"]; ["banana"; "cherry"]])
        (given_up (generate_alphabetical_order_recall_words
                     ["apple"; "avocado"; "banana"; "blueberry"; "cherry"]
                     (PyTuple [1; 1]) 3 2)
                  [0; 0; 0; 0; 1; 0; 5; 5; 2]%N)
      = Z.to_nat 3).
Proof.
  apply (alphabetical_tuples_full_and_distinct
           ["apple"; "avocado"; "banana"; "blueberry"; "cherry"]
           (PyTuple [1; 1]) 3 2 [0; 0; 0; 0; 1; 0; 5; 5; 2]%N).
  reflexivity.
Defined.

(** ** The retry ceiling of the letter search *)

Lemma sample_letter_draw lo hi si x c rest tr ab :
  lo <= hi -> drawn_letter lo hi si x = Some c ->
  sample_letter lo hi si (mkWorld (x :: rest) tr ab)
  = (Ok c, mkWorld rest tr ab).
Proof.
  intros Hle Hc. unfold sample_letter, bind, randint.
  destruct (Z.ltb_spec hi lo) as [?|_]; [lia|].
  unfold bind, draw, ret, str_getitem. cbn [draws trace abandoned].
  pose proof (Z.mod_pos_bound (si + (lo + Z.of_N x mod (hi - lo + 1))) 26).
  destruct (Z.ltb_spec ((si + (lo + Z.of_N x mod (hi - lo + 1))) mod 26) 0)
    as [?|_]; [lia|].
  unfold drawn_letter in Hc. rewrite Hc. reflexivity.
Qed.

Lemma resample_loop_full lo hi ltw si used last d rest tr ab :
  lo <= hi -> drawn_letter lo hi si d = Some last ->
  forall ds l a,
    a + Z.of_nat (List.length ds) = 25 ->
    unsuitable ltw used l = true ->
    Forall (rejected lo hi ltw si used) ds ->
    resample_loop lo hi ltw si (S (List.length ds)) used l a
                  (mkWorld (ds ++ d :: rest) tr ab)
    = (Ok (last, 26), mkWorld rest tr ab).
Proof.
  intros Hle Hlast. induction ds as [|x ds IH]; intros l a Ha Hl Hds.
  - simpl in Ha. cbn [List.length resample_loop app]. rewrite Hl.
    destruct (Z.ltb_spec a 26) as [_|?]; [|lia]. cbn [andb].
    unfold bind. rewrite (sample_letter_draw _ _ _ _ _ _ _ _ Hle Hlast).
    replace (a + 1) with 26 by lia. reflexivity.
  - inversion Hds as [|? ? (c & Hc & Hrej) Hds']; subst.
    cbn [List.length] in *. cbn [resample_loop app]. rewrite Hl.
    destruct (Z.ltb_spec a 26) as [_|?]; [|lia]. cbn [andb].
    unfold bind at 1. rewrite (sample_letter_draw _ _ _ _ _ _ _ _ Hle Hc).
    apply IH; [lia | exact Hrej | exact Hds'].
Qed.

(** C9.  When the letter [first] of the first distance drawn for a slot
    and the letters of the first 25 resamples [ds] are all rejected, the
    loop makes its 26th resample [d] and leaves with [attempts = 26]; the
    tuple is then given up whatever letter [last] that 26th resample
    produced, suitable or not: no word is gathered for the slot, the search
    counts as given up, and the words so far are returned as they were. *)
Theorem last_resample_is_never_examined
    (lo hi : Z) (letter_to_words : dict (K := ascii) (V := string))
    (start_index : Z) (slots : nat) (words_in_tuple : list string)
    (used_letters : list ascii) (x0 : N) (first : ascii) (ds : list N)
    (d : N) (last : ascii) (rest : list N) (tr : list event) (ab : nat) :
  lo <= hi ->
  drawn_letter lo hi start_index x0 = Some first ->
  unsuitable letter_to_words used_letters first = true ->
  List.length ds = 25%nat ->
  Forall (rejected lo hi letter_to_words start_index used_letters) ds ->
  drawn_letter lo hi start_index d = Some last ->
  resample_loop lo hi letter_to_words start_index 26 used_letters first 0
                (mkWorld (ds ++ d :: rest) tr ab)
  = (Ok (last, 26), mkWorld rest tr ab)
  /\ fill_slots lo hi letter_to_words start_index (S slots)
                words_in_tuple used_letters
                (mkWorld (x0 :: ds ++ d :: rest) tr ab)
     = (Ok words_in_tuple, mkWorld rest tr (S ab)).
Proof.
  intros Hle Hfirst Hbad Hlen Hrej Hlast.
  assert (Hloop :
    resample_loop lo hi letter_to_words start_index 26 used_letters first 0
                  (mkWorld (ds ++ d :: rest) tr ab)
    = (Ok (last, 26), mkWorld rest tr ab)).
  { replace 26%nat with (S (List.length ds)) by lia.
    eapply resample_loop_full; eauto. lia. }
  split; [exact Hloop|].
  cbn [fill_slots]. unfold bind at 1.
  rewrite (sample_letter_draw _ _ _ _ _ _ _ _ Hle Hfirst).
  unfold bind at 1. rewrite Hloop. reflexivity.
Qed.

(** The alphabet from start index 0 with distances 1..25: a first draw of 4
    gives distance 5, letter "f", which has no words, and so do the next 25
    resamples; the 26th resample gives distance 1, letter "b", which is
    unused and has words, and the tuple is given up all the same. *)
Lemma last_resample_is_never_examined_witness :
  resample_loop 1 25
    (build_letter_to_words ["apple"; "banana"]) 0 26 ["a"%char] "f"%char 0
    (mkWorld (repeat 4%N 25 ++ 0%N :: []) [] 0)
  = (Ok ("b"%char, 26), mkWorld [] [] 0)
  /\ fill_slots 1 25 (build_letter_to_words ["apple"; "banana"]) 0 1
                ["apple"] ["a"%char]
                (mkWorld (4%N :: repeat 4%N 25 ++ 0%N :: []) [] 0)
     = (Ok ["apple"], mkWorld [] [] 1).
Proof.
  apply (last_resample_is_never_examined
           1 25 (build_letter_to_words ["apple"; "banana"]) 0 0
           ["apple"] ["a"%char] 4%N "f"%char (repeat 4%N 25) 0%N "b"%char
           [] [] 0%nat).
  - lia.
  - reflexivity.
  - reflexivity.
  - reflexivity.
  - repeat constructor; exists "f"%char; split; reflexivity.
  - reflexivity.
Defined.

(** The letter of the 26th resample above is one the search accepts. *)
Example last_letter_was_suitable :
  unsuitable (build_letter_to_words ["apple"; "banana"]) ["a"%char] "b"%char
  = false.
Proof. reflexivity. Qed.

(** The same run through the whole generator: nothing is emitted. *)
Example tuple_dropped_after_26_resamples :
  run (generate_alphabetical_order_recall_words
         ["apple"; "banana"] (PyTuple [1; 25]) 1 2)
      (0 :: 0 :: 4 :: repeat 4 25 ++ [0])%N = Ok []
  /\ given_up (generate_alphabetical_order_recall_words
                 ["apple"; "banana"] (PyTuple [1; 25]) 1 2)
              (0 :: 0 :: 4 :: repeat 4 25 ++ [0])%N = 1%nat.
Proof. split; reflexivity. Qed.

(** * Exceptions the generators raise *)

Lemma alphabetical_int_raises valid_words d count ts w :
  generate_alphabetical_order_recall_words valid_words (PyInt d) count ts w
  = (Raise TypeError, logged (CallAlphabetical (PyInt d) count ts) w).
Proof. reflexivity. Qed.

Lemma alphabetical_empty_raises a b p ts w :
  generate_alphabetical_order_recall_words [] (PyTuple [a; b]) (Z.pos p) ts w
  = (Raise IndexError,
     logged (CallAlphabetical (PyTuple [a; b]) (Z.pos p) ts) w).
Proof.
  unfold generate_alphabetical_order_recall_words, bind, log.
  rewrite normalize_range_pair. destruct (normalized a b) as [lo hi].
  destruct (Pos2Nat.is_succ p) as [n Hn]. simpl Z.to_nat. rewrite Hn.
  reflexivity.
Qed.

Lemma sorting_empty rank count ts mpl w :
  generate_sorting_algorithm_words [] rank count ts mpl w
  = (Ok [], logged (Returned 0) (logged (CallSorting rank count ts) w)).
Proof. reflexivity. Qed.

Lemma Qltb_lt x y : Qltb x y = true <-> (x < y)%Q.
Proof.
  unfold Qltb. rewrite negb_true_iff. split.
  - intros H. apply Qnot_le_lt. intros Hle.
    apply Qle_bool_iff in Hle. congruence.
  - intros H. destruct (Qle_bool y x) eqn:Hb; [|reflexivity].
    apply Qle_bool_iff in Hb. exfalso. eapply Qlt_not_le; eauto.
Qed.

Lemma random_unit_spec w E :
  outcome random_unit w
    (fun u w' => same_ghost w w' /\ (0 <= u)%Q /\ (u < 1)%Q) E.
Proof.
  unfold random_unit. apply outcome_bind.
  eapply outcome_weaken; [apply draw_spec with (E := E) | | auto].
  intros x w' Hg. apply outcome_ret. split; [exact Hg|].
  assert (Hlt : (x mod two_pow_53 < two_pow_53)%N)
    by (apply N.mod_lt; discriminate).
  generalize dependent (x mod two_pow_53)%N. intros y Hlt.
  unfold two_pow_53 in *. unfold Qle, Qlt. cbn [Qnum Qden]. lia.
Qed.

Lemma uniform_spec a b w E :
  outcome (uniform a b) w
    (fun r w' => same_ghost w w'
                 /\ exists u, (0 <= u)%Q /\ (u < 1)%Q
                              /\ r = (a + (b - a) * u)%Q) E.
Proof.
  unfold uniform. apply outcome_bind.
  eapply outcome_weaken; [apply random_unit_spec with (E := E) | | auto].
  intros u w' (Hg & H0 & H1). apply outcome_ret. split; [exact Hg|].
  exists u. auto.
Qed.

(** What a computation did, read off its [outcome]. *)
Lemma raises_by_outcome {A} (m : M A) rng e (T : list event -> Prop) :
  outcome m (start rng) (fun _ _ => False)
          (fun e' w' => e' = e /\ T (rev (trace w'))) ->
  run m rng = Raise e /\ T (events m rng).
Proof.
  unfold outcome, run, events.
  destruct (m (start rng)) as [[a|e'] w']; simpl; [tauto|].
  intros [-> H]. auto.
Qed.

Lemma mixed_integer_difficulty_direct valid_words rng ts d d2 p :
  run (generate_word_tuples valid_words (Z.pos p) ts 1 0 (PyInt d) d2) rng
  = Raise TypeError
  /\ events (generate_word_tuples valid_words (Z.pos p) ts 1 0 (PyInt d) d2)
            rng
     = [CallAlphabetical (PyInt d) 1 ts].
Proof.
  destruct (Pos2Nat.is_succ p) as [n Hn].
  apply raises_by_outcome with
    (T := fun t => t = [CallAlphabetical (PyInt d) 1 ts]).
  unfold generate_word_tuples. simpl Z.to_nat. rewrite Hn.
  cbn [mixed_loop]. apply outcome_bind.
  eapply outcome_weaken;
    [apply uniform_spec with (E := never) | | intros ? ? []].
  intros r w1 ([Ht _] & u & H0 & H1 & ->). cbv beta.
  assert (Hlt : Qltb (0 + (1 + 0 - 0) * u) 1 = true)
    by (apply Qltb_lt; lra).
  rewrite Hlt. apply outcome_bind. unfold outcome at 1.
  rewrite alphabetical_int_raises. simpl. rewrite Ht. split; reflexivity.
Qed.

(** C1.  [generate_word_tuples] hands [difficulty1] to the alphabetical
    generator as it is, not as the pair [(difficulty1, difficulty1)]: for an
    integer [difficulty1] the call is made with [count = 1] and raises
    [TypeError] at the unpacking of line 29, both when the draw is below
    [probability_goal1] and when the alphabetical generator is the fallback
    after the prefix generator yielded nothing; [generate_word_tuples] then
    raises too. *)
Theorem integer_difficulty1_raises
    (valid_words : list string) (rng : list N) (tuple_size d difficulty2 : Z)
    (p : positive) (w : world) :
  generate_alphabetical_order_recall_words valid_words (PyInt d) 1 tuple_size w
  = (Raise TypeError, logged (CallAlphabetical (PyInt d) 1 tuple_size) w)
  /\ (run (generate_word_tuples valid_words (Z.pos p) tuple_size 1 0
                                (PyInt d) difficulty2) rng = Raise TypeError
      /\ events (generate_word_tuples valid_words (Z.pos p) tuple_size 1 0
                                      (PyInt d) difficulty2) rng
         = [CallAlphabetical (PyInt d) 1 tuple_size])
  /\ (run (generate_word_tuples [] (Z.pos p) tuple_size 0 1
                                (PyInt d) difficulty2) rng = Raise TypeError
      /\ events (generate_word_tuples [] (Z.pos p) tuple_size 0 1
                                      (PyInt d) difficulty2) rng
         = [CallSorting difficulty2 1 tuple_size; Returned 0;
            CallAlphabetical (PyInt d) 1 tuple_size]).
Proof.
  split; [reflexivity|].
  destruct (Pos2Nat.is_succ p) as [n Hn].
  split.
  - apply mixed_integer_difficulty_direct.
  - apply raises_by_outcome with
      (T := fun t => t = [CallSorting difficulty2 1 tuple_size; Returned 0;
                          CallAlphabetical (PyInt d) 1 tuple_size]).
    unfold generate_word_tuples. simpl Z.to_nat. rewrite Hn.
    cbn [mixed_loop]. apply outcome_bind.
    eapply outcome_weaken;
      [apply uniform_spec with (E := never) | | intros ? ? []].
    intros r w1 ([Ht _] & u & H0 & H1 & ->). cbv beta.
    assert (Hge : Qltb (0 + (0 + 1 - 0) * u) 0 = false).
    { destruct (Qltb (0 + (0 + 1 - 0) * u) 0) eqn:Hb; [|reflexivity].
      apply Qltb_lt in Hb. lra. }
    rewrite Hge. apply outcome_bind. unfold outcome at 1.
    rewrite sorting_empty. cbv beta iota. apply outcome_bind.
    unfold outcome at 1. rewrite alphabetical_int_raises.
    simpl. rewrite Ht. split; reflexivity.
Qed.

(** C2.  On an empty word list the prefix generator returns the empty
    list, but the alphabetical generator does not: with a count of at least
    one it calls [random.choice] on the empty list of letters (line 47) and
    raises [IndexError], and so does [generate_word_tuples], whose every
    round ends in the alphabetical generator. *)
Theorem empty_word_list_raises
    (rng : list N) (a b tuple_size rank min_prefix_length : Z)
    (p : positive) (probability_goal1 probability_goal2 : Q) :
  run (generate_alphabetical_order_recall_words
         [] (PyTuple [a; b]) (Z.pos p) tuple_size) rng = Raise IndexError
  /\ run (generate_sorting_algorithm_words
            [] rank (Z.pos p) tuple_size min_prefix_length) rng = Ok []
  /\ run (generate_word_tuples [] (Z.pos p) tuple_size
                               probability_goal1 probability_goal2
                               (PyTuple [a; b]) rank) rng = Raise IndexError.
Proof.
  split; [unfold run; rewrite alphabetical_empty_raises; reflexivity|].
  split; [reflexivity|].
  destruct (Pos2Nat.is_succ p) as [n Hn].
  apply (raises_by_outcome _ rng IndexError (fun _ => True)).
  unfold generate_word_tuples. simpl Z.to_nat. rewrite Hn.
  cbn [mixed_loop]. apply outcome_bind.
  eapply outcome_weaken;
    [apply uniform_spec with (E := never) | | intros ? ? []].
  intros r w1 _. cbv beta.
  destruct (Qltb r probability_goal1).
  - apply outcome_bind. unfold outcome at 1.
    rewrite (alphabetical_empty_raises a b 1). auto.
  - apply outcome_bind. unfold outcome at 1. rewrite sorting_empty.
    cbv beta iota. apply outcome_bind. unfold outcome at 1.
    rewrite (alphabetical_empty_raises a b 1). auto.
Qed.

(** * The prefix-divergence generator *)

(** ** Strings *)

Lemma length_lower s : String.length (lower s) = String.length s.
Proof. induction s as [|c s IH]; simpl; congruence. Qed.

Lemma len_lower s : len (lower s) = len s.
Proof. unfold len. rewrite length_lower. reflexivity. Qed.

Lemma length_take n : forall s,
  String.length (take n s) = Nat.min n (String.length s).
Proof.
  induction n as [|n IH]; intros [|c s]; simpl; auto.
Qed.

Lemma lower_take n : forall s, lower (take n s) = take n (lower s).
Proof.
  induction n as [|n IH]; intros [|c s]; simpl; auto. rewrite IH. reflexivity.
Qed.

Lemma take_all n : forall s, (String.length s <= n)%nat -> take n s = s.
Proof.
  induction n as [|n IH]; intros [|c s] Hs; simpl in *; auto; try lia.
  rewrite IH by lia. reflexivity.
Qed.

Lemma take_take n : forall m s, take n (take m s) = take (Nat.min n m) s.
Proof.
  induction n as [|n IH]; intros [|m] [|c s]; simpl; auto.
  rewrite IH. reflexivity.
Qed.

Lemma prefix_take p : forall s,
  String.prefix p s = true ->
  take (String.length p) s = p /\ (String.length p <= String.length s)%nat.
Proof.
  induction p as [|a p IH]; intros [|b s]; simpl; intros H;
    try discriminate; try (split; [reflexivity | lia]).
  destruct (ascii_dec a b) as [->|]; [|discriminate].
  destruct (IH s H) as [Ht Hl]. rewrite Ht. split; [reflexivity | lia].
Qed.

Lemma length_slice_to s k :
  0 <= k -> Z.of_nat (String.length (slice_to s k)) = Z.min k (len s).
Proof.
  intros Hk. unfold slice_to, len.
  destruct (Z.leb_spec 0 k); [|lia]. rewrite length_take. lia.
Qed.

Lemma first_difference_take m : forall a b n,
  take m a = take m b -> first_difference a b = Some n -> (m <= n)%nat.
Proof.
  induction m as [|m IH]; intros a b n Ht Hd; [lia|].
  destruct a as [|x a], b as [|y b]; simpl in *; try discriminate.
  inversion Ht; subst. rewrite Ascii.eqb_refl in Hd.
  destruct (first_difference a b) as [n'|] eqn:Hn; [|discriminate].
  inversion Hd; subst. specialize (IH a b n' H1 Hn). lia.
Qed.

(** ** The buckets *)

Lemma set_insert_In {A} (eqb : A -> A -> bool) x a s :
  In x (set_insert eqb a s) -> x = a \/ In x s.
Proof.
  unfold set_insert. destruct (mem eqb a s); [auto|].
  intros H. apply in_app_or in H. destruct H as [H|[<-|[]]]; auto.
Qed.

Lemma build_prefixes_In valid_words rank key :
  In key (build_prefixes valid_words rank) ->
  exists word, In word valid_words /\ key = lower (slice_to word rank).
Proof.
  unfold build_prefixes.
  assert (Hgen : forall ws acc,
    In key (fold_left
              (fun prefixes word =>
                 set_insert String.eqb (lower (slice_to word rank)) prefixes)
              ws acc) ->
    In key acc
    \/ exists word, In word ws /\ key = lower (slice_to word rank)).
  { induction ws as [|word ws IH]; intros acc H; simpl in *; [auto|].
    destruct (IH _ H) as [Hacc|(w0 & Hw0 & Hk)]; [|eauto].
    apply set_insert_In in Hacc. destruct Hacc as [->|Hacc]; eauto. }
  intros H. destruct (Hgen _ _ H) as [[]|Hex]. exact Hex.
Qed.

Lemma build_prefix_to_words_hold valid_words rank mpl prefixes :
  buckets_hold
    (fun key word => In word valid_words
                     /\ filed_under rank mpl prefixes key word)
    (build_prefix_to_words valid_words rank mpl prefixes).
Proof.
  unfold build_prefix_to_words.
  set (P := fun key word => In word valid_words
                            /\ filed_under rank mpl prefixes key word).
  assert (Hgen : forall ws acc,
    incl ws valid_words -> buckets_hold P acc ->
    buckets_hold P (fold_left (file_word rank mpl prefixes) ws acc)).
  { induction ws as [|word ws IH]; intros acc Hincl Hacc; cbn [fold_left];
      [exact Hacc|].
    assert (Hword : In word valid_words) by (apply Hincl; left; reflexivity).
    apply IH; [intros x Hx; apply Hincl; right; exact Hx|].
    unfold file_word. cbv zeta. rewrite len_lower.
    rewrite Z.geb_leb. destruct (Z.leb_spec rank (len word)) as [Hlong|Hshort].
    - apply setdefault_append_hold; auto using string_eqb_eq.
      split; [exact Hword|]. left. split; [lia | reflexivity].
    - rewrite Z.gtb_ltb. destruct (Z.ltb_spec mpl (len word)) as [Hstem|_];
        [|exact Hacc].
      assert (Hinner : forall ps d,
        incl ps prefixes -> buckets_hold P d ->
        buckets_hold P
          (fold_left
             (fun prefix_to_words prefix =>
                if startswith prefix (lower word)
                then setdefault_append String.eqb prefix word prefix_to_words
                else prefix_to_words)
             ps d)).
      { induction ps as [|q ps IHps]; intros d Hps Hd; cbn [fold_left];
          [exact Hd|].
        apply IHps; [intros x Hx; apply Hps; right; exact Hx|].
        destruct (startswith q (lower word)) eqn:Hq; [|exact Hd].
        apply setdefault_append_hold; auto using string_eqb_eq.
        split; [exact Hword|]. right. repeat split; auto; try lia.
        apply Hps. left; reflexivity. }
      apply Hinner; [apply incl_refl | exact Hacc]. }
  apply Hgen; [apply incl_refl | apply buckets_hold_nil].
Qed.

(** ** The sampling loop *)

Section SortingLoopFacts.
Variable d : dict (K := string) (V := string).
Variable prefixes : list string.
Variable ts : Z.
Hypothesis Hprefixes : forall key, In key prefixes -> In key (keys d).

Lemma sorting_loop_spec : forall n acc w,
  Forall (drawn_from d ts) acc ->
  outcome (sorting_loop d prefixes ts n acc) w
    (fun out w' =>
       same_ghost w w'
       /\ Forall (drawn_from d ts) out
       /\ (List.length out <= List.length acc + n)%nat
       /\ (prefixes <> [] ->
           (forall key bucket, In (key, bucket) d ->
                               ts <= Z.of_nat (List.length bucket)) ->
           List.length out = (List.length acc + n)%nat)
       /\ ((forall key bucket, In (key, bucket) d ->
                               Z.of_nat (List.length bucket) < ts) ->
           out = acc))
    (fun e w' => e = ValueError /\ ts < 0 /\ same_ghost w w').
Proof.
  induction n as [|n IH]; intros acc w Hacc; cbn [sorting_loop].
  - apply outcome_ret. repeat split; auto; lia.
  - destruct prefixes as [|k ks] eqn:Hkeys.
    + apply outcome_ret. repeat split; auto; try lia. congruence.
    + rewrite <- Hkeys in *. apply outcome_bind.
      eapply outcome_weaken;
        [apply choice_spec | | intros e w' [? _]; congruence].
      intros prefix w1 [Hg1 Hprefix]. cbv beta.
      destruct (keys_lookup String.eqb string_eqb_eq _ _
                            (Hprefixes _ Hprefix))
        as [bucket Hlook].
      pose proof (lookup_In String.eqb string_eqb_eq _ _ _ Hlook) as Hin.
      apply outcome_bind.
      eapply outcome_weaken;
        [apply (getitem_spec String.eqb) | | intros e w' [? _]; congruence].
      intros vs w2 [-> Hvs]. rewrite Hlook in Hvs. inversion Hvs; subst vs.
      cbv beta.
      destruct (Z.ltb_spec (Z.of_nat (List.length bucket)) ts) as [Hsmall|Hfit].
      * eapply outcome_weaken; [apply IH; exact Hacc | | ].
        -- intros out w' (Hg & Hout & Hle & Hall & Hnone).
           split; [eapply same_ghost_trans; eauto|]. split; [exact Hout|].
           split; [lia|]. split; [|exact Hnone].
           intros _ Hbig. specialize (Hbig _ _ Hin). lia.
        -- intros e w' (? & ? & Hg). split; [auto|]. split; [auto|].
           eapply same_ghost_trans; eauto.
      * apply outcome_bind.
        eapply outcome_weaken; [apply sample_spec | | ].
        -- intros t w2 (Hg2 & Hlen & Hincl). cbv beta.
           eapply outcome_weaken.
           ++ apply IH. apply Forall_app. split; [exact Hacc|].
              repeat constructor; eauto.
           ++ intros out w' (Hg & Hout & Hle & Hall & Hnone).
              rewrite length_app in *. cbn [List.length] in *.
              split.
              { eapply same_ghost_trans; [|exact Hg].
                eapply same_ghost_trans; eauto. }
              split; [exact Hout|]. split; [lia|]. split.
              ** intros Hne Hbig. rewrite (Hall Hne Hbig). lia.
              ** intros Hsmall. specialize (Hsmall _ _ Hin). lia.
           ++ intros e w' (? & ? & Hg). split; [auto|]. split; [auto|].
              eapply same_ghost_trans; [|exact Hg].
              eapply same_ghost_trans; eauto.
        -- intros e w' (-> & [Hneg|Hbig] & ->); [|lia]. auto.
Qed.
End SortingLoopFacts.

Lemma outcome_total {A} (m : M A) w P E :
  outcome m w P E -> (forall e w', ~ E e w') ->
  exists a w', m w = (Ok a, w') /\ P a w'.
Proof.
  unfold outcome. destruct (m w) as [[a|e] w1]; intros H Hno; [eauto|].
  destruct (Hno _ _ H).
Qed.

Lemma sorting_spec valid_words rank count ts mpl w :
  outcome (generate_sorting_algorithm_words valid_words rank count ts mpl) w
    (fun out w' =>
       abandoned w' = abandoned w
       /\ trace w' = Returned (List.length out)
                     :: CallSorting rank count ts :: trace w
       /\ Forall (drawn_from (prefix_buckets valid_words rank mpl) ts) out
       /\ (List.length out <= Z.to_nat count)%nat
       /\ (prefix_buckets valid_words rank mpl <> [] ->
           (forall key bucket,
              In (key, bucket) (prefix_buckets valid_words rank mpl) ->
              ts <= Z.of_nat (List.length bucket)) ->
           List.length out = Z.to_nat count)
       /\ ((forall key bucket,
              In (key, bucket) (prefix_buckets valid_words rank mpl) ->
              Z.of_nat (List.length bucket) < ts) ->
           out = []))
    (fun e w' => e = ValueError /\ ts < 0
                 /\ trace w' = CallSorting rank count ts :: trace w).
Proof.
  unfold generate_sorting_algorithm_words.
  apply outcome_bind. unfold log at 1. unfold outcome at 1.
  apply outcome_bind.
  destruct valid_words as [|word0 ws] eqn:Hvw.
  - apply outcome_ret. unfold outcome, bind, log, ret. simpl.
    repeat split; auto; try lia.
    intros Hne. exfalso. apply Hne. reflexivity.
  - rewrite <- Hvw. cbv zeta. fold (prefix_buckets valid_words rank mpl).
    eapply outcome_weaken.
    + apply sorting_loop_spec; [auto | constructor].
    + intros out w' ([Ht Ha] & Hout & Hle & Hall & Hnone). cbv beta.
      unfold outcome, bind, log, ret. simpl in *.
      split; [exact Ha|]. split; [congruence|]. split; [exact Hout|].
      split; [exact Hle|]. split; [|exact Hnone].
      intros Hne Hbig. apply Hall; [|exact Hbig].
      destruct (prefix_buckets valid_words rank mpl); [congruence|discriminate].
    + intros e w' (-> & Hts & [Ht _]). simpl in Ht. auto.
Qed.

Lemma filed_under_key_length valid_words rank mpl key word :
  0 <= rank ->
  filed_under rank mpl (build_prefixes valid_words rank) key word ->
  len key <= rank /\ (rank <= len word -> len key = rank).
Proof.
  intros Hrank [[Hlong ->]|(Hshort & _ & Hin & _)].
  - unfold len at 1 3. rewrite length_slice_to by exact Hrank.
    rewrite len_lower. lia.
  - apply build_prefixes_In in Hin. destruct Hin as (w0 & _ & ->).
    unfold len at 1 3. rewrite length_lower, length_slice_to by exact Hrank.
    lia.
Qed.

Lemma filed_under_agrees rank mpl prefixes key word m :
  0 <= rank -> filed_under rank mpl prefixes key word ->
  (m <= String.length word)%nat -> (m <= String.length key)%nat ->
  take m (lower word) = take m key.
Proof.
  intros Hrank [[Hlong ->]|(_ & _ & _ & Hstem)] Hmw Hmk.
  - unfold slice_to in *. destruct (Z.leb_spec 0 rank); [|lia].
    rewrite take_take. rewrite length_take in Hmk.
    f_equal. lia.
  - unfold startswith in Hstem. apply prefix_take in Hstem.
    destruct Hstem as [Htake _]. rewrite <- Htake at 1.
    rewrite take_take, length_lower. f_equal. lia.
Qed.

(** * The claims about the prefix-divergence generator *)

(** C3, as the code has it.  For [rank >= 1] every emitted tuple is drawn
    from the bucket of one key.  The key is the lower-cased prefix of some
    word and has length at most [rank]; a word of the tuple either has
    length at least [rank] and its lower-cased first [rank] characters are
    the key (whose length is then exactly [rank]), or is a short stem,
    longer than [min_prefix_length] and shorter than [rank], that the key
    starts with.  Any two words of the tuple agree, case-insensitively,
    below the smallest of their lengths and the key's length, so they first
    differ at or after that position (position [rank] for two words of
    length at least [rank]). *)
Theorem sorting_tuples_share_stem
    (valid_words : list string) (rank count tuple_size min_prefix_length : Z)
    (rng : list N) (out : list word_tuple) (t : word_tuple) :
  1 <= rank ->
  run (generate_sorting_algorithm_words
         valid_words rank count tuple_size min_prefix_length) rng = Ok out ->
  In t out ->
  exists key,
    len key <= rank
    /\ (forall word, In word t ->
          In word valid_words
          /\ ((rank <= len word
               /\ slice_to (lower word) rank = key /\ len key = rank)
              \/ (min_prefix_length < len word < rank
                  /\ startswith key (lower word) = true)))
    /\ (forall w1 w2 n, In w1 t -> In w2 t ->
          first_difference (lower w1) (lower w2) = Some n ->
          Z.min (len key) (Z.min (len w1) (len w2)) <= Z.of_nat n).
Proof.
  intros Hrank Hrun Hin.
  assert (Hr0 : 0 <= rank) by lia.
  pose proof (run_ok _ _ _ _ _
                (sorting_spec valid_words rank count tuple_size
                              min_prefix_length (start rng)) Hrun)
    as (_ & _ & Hall & _).
  rewrite Forall_forall in Hall.
  destruct (Hall t Hin) as (_ & key & bucket & Hlook & Hincl).
  apply (lookup_In String.eqb string_eqb_eq) in Hlook.
  destruct (build_prefix_to_words_hold valid_words rank min_prefix_length
              (build_prefixes valid_words rank) _ _ Hlook) as [Hne Hfiled].
  assert (Hkey : len key <= rank).
  { destruct bucket as [|w0 bucket]; [congruence|].
    destruct (Hfiled w0 (or_introl eq_refl)) as [_ Hf].
    eapply filed_under_key_length; [lia | exact Hf]. }
  exists key. split; [exact Hkey|]. split.
  - intros word Hword. destruct (Hfiled word (Hincl _ Hword)) as [Hvw Hf].
    split; [exact Hvw|].
    destruct (filed_under_key_length valid_words rank min_prefix_length
                key word Hr0 Hf) as [_ Hexact].
    destruct Hf as [[Hlong ->]|(Hshort & Hmin & _ & Hstem)].
    + left. split; [lia|]. split; [reflexivity | apply Hexact; lia].
    + right. split; [lia | exact Hstem].
  - intros w1 w2 n Hw1 Hw2 Hdiff.
    destruct (Hfiled w1 (Hincl _ Hw1)) as [_ Hf1].
    destruct (Hfiled w2 (Hincl _ Hw2)) as [_ Hf2].
    set (m := Nat.min (String.length key)
                      (Nat.min (String.length w1) (String.length w2))).
    assert (Hm : (m <= n)%nat).
    { apply (first_difference_take m _ _ _) with (2 := Hdiff).
      rewrite (filed_under_agrees _ _ _ _ _ m Hr0 Hf1) by (unfold m; lia).
      rewrite (filed_under_agrees _ _ _ _ _ m Hr0 Hf2) by (unfold m; lia).
      reflexivity. }
    unfold len. unfold m in Hm. lia.
Qed.

Lemma sorting_tuples_share_stem_witness :
  exists key,
    len key <= 1
    /\ (forall word, In word ["apple"; "avocado"] ->
          In word ["apple"; "avocado"; "banana"; "blueberry"; "cherry"]
          /\ ((1 <= len word
               /\ slice_to (lower word) 1 = key /\ len key = 1)
              \/ (2 < len word < 1
                  /\ startswith key (lower word) = true)))
    /\ (forall w1 w2 n, In w1 ["apple"; "avocado"] ->
          In w2 ["apple"; "avocado"] ->
          first_difference (lower w1) (lower w2) = Some n ->
          Z.min (len key) (Z.min (len w1) (len w2)) <= Z.of_nat n).
Proof.
  apply (sorting_tuples_share_stem
           ["apple"; "avocado"; "banana"; "blueberry"; "cherry"]
           1 1 2 2 [0; 0; 0]%N [["apple"; "avocado"]]);
    [lia | reflexivity | left; reflexivity].
Defined.

(** Counterexample to C3 as stated: at rank 5 the short stems "abc" and "abcd" (both
    longer than [min_prefix_length = 2]) are filed under the key "abcd",
    the lower-cased whole of a word shorter than [rank].  The tuple drawn
    from that bucket comes from no key of length 5, and its two words
    differ at position 3, before position 5. *)
Lemma short_stems_counterexample :
  run (generate_sorting_algorithm_words ["abc"; "abcd"] 5 1 2 2)
      [1; 0; 0]%N = Ok [["abc"; "abcd"]]
  /\ prefix_buckets ["abc"; "abcd"] 5 2
     = [("abc", ["abc"]); ("abcd", ["abc"; "abcd"])]
  /\ ~ (exists key bucket,
          lookup String.eqb key (prefix_buckets ["abc"; "abcd"] 5 2)
          = Some bucket
          /\ incl ["abc"; "abcd"] bucket /\ len key = 5)
  /\ first_difference (lower "abc") (lower "abcd") = Some 3%nat.
Proof.
  split; [reflexivity|]. split; [reflexivity|]. split; [|reflexivity].
  intros (key & bucket & Hlook & Hincl & Hlen).
  apply (lookup_In String.eqb string_eqb_eq) in Hlook.
  change (prefix_buckets ["abc"; "abcd"] 5 2)
    with [("abc", ["abc"]); ("abcd", ["abc"; "abcd"])] in Hlook.
  destruct Hlook as [Heq|[Heq|[]]]; inversion Heq; subst;
    vm_compute in Hlen; discriminate.
Qed.

(** ** A rank that is not positive *)

Lemma slice_to_empty s rank :
  rank = 0 \/ (rank < 0 /\ len s <= - rank) -> slice_to s rank = EmptyString.
Proof.
  unfold slice_to. intros [->|[Hneg Hlen]]; [reflexivity|].
  destruct (Z.leb_spec 0 rank); [lia|].
  replace (Z.to_nat (len s + rank)) with O by lia. reflexivity.
Qed.

Lemma build_prefixes_all_empty rank : forall ws,
  (forall word, In word ws -> slice_to word rank = EmptyString) ->
  fold_left
    (fun prefixes word =>
       set_insert String.eqb (lower (slice_to word rank)) prefixes)
    ws [EmptyString] = [EmptyString].
Proof.
  induction ws as [|word ws IH]; intros Hws; cbn [fold_left]; [reflexivity|].
  rewrite (Hws word (or_introl eq_refl)). cbn. apply IH.
  intros w Hw. apply Hws. right; exact Hw.
Qed.

Lemma build_prefix_to_words_all_empty rank mpl prefixes : forall ws pre,
  rank <= 0 ->
  (forall word, In word ws -> slice_to (lower word) rank = EmptyString) ->
  fold_left (file_word rank mpl prefixes) ws [(EmptyString, pre)]
  = [(EmptyString, pre ++ ws)].
Proof.
  induction ws as [|word ws IH]; intros pre Hrank Hws; cbn [fold_left].
  - rewrite app_nil_r. reflexivity.
  - unfold file_word at 2. cbv zeta. rewrite Z.geb_leb.
    destruct (Z.leb_spec rank (len (lower word))) as [_|Hlt];
      [|unfold len in Hlt; lia].
    rewrite (Hws word (or_introl eq_refl)). cbn [setdefault_append].
    change (String.eqb EmptyString EmptyString) with true. cbv iota.
    rewrite IH; [|exact Hrank|intros w Hw; apply Hws; right; exact Hw].
    rewrite <- app_assoc. reflexivity.
Qed.

(** C7, as the code has it.  A rank of 0, and a negative rank when no word
    is longer than [- rank], makes the empty string the prefix of every
    word: all the words lie in the one bucket of the empty key, and the output
    is limited by the tuple size alone: [count] tuples when the word list
    has at least [tuple_size] words, none otherwise.  (For other negative
    ranks [word[:rank]] drops the last [- rank] characters of the word and
    is not empty.) *)
Theorem rank_zero_single_bucket
    (valid_words : list string) (rank min_prefix_length : Z) :
  valid_words <> [] ->
  rank = 0
  \/ (rank < 0 /\ forall word, In word valid_words -> len word <= - rank) ->
  (forall word, In word valid_words -> lower (slice_to word rank) = EmptyString)
  /\ build_prefixes valid_words rank = [EmptyString]
  /\ prefix_buckets valid_words rank min_prefix_length = [(EmptyString, valid_words)]
  /\ forall (count tuple_size : Z) (rng : list N),
       0 <= tuple_size ->
       exists out,
         run (generate_sorting_algorithm_words
                valid_words rank count tuple_size min_prefix_length) rng
         = Ok out
         /\ (forall t, In t out ->
               Z.of_nat (List.length t) = tuple_size /\ incl t valid_words)
         /\ (tuple_size <= Z.of_nat (List.length valid_words) ->
             List.length out = Z.to_nat count)
         /\ (Z.of_nat (List.length valid_words) < tuple_size -> out = []).
Proof.
  intros Hne Hrank.
  assert (Hr0 : rank <= 0) by (destruct Hrank as [->|[? _]]; lia).
  assert (Hslice : forall word, In word valid_words ->
                                slice_to word rank = EmptyString).
  { intros word Hw. apply slice_to_empty.
    destruct Hrank as [->|[Hneg Hall]]; [left; reflexivity|].
    right. split; [exact Hneg | apply Hall, Hw]. }
  assert (Hslice' : forall word, In word valid_words ->
                                 slice_to (lower word) rank = EmptyString).
  { intros word Hw. apply slice_to_empty.
    destruct Hrank as [->|[Hneg Hall]]; [left; reflexivity|].
    right. split; [exact Hneg | rewrite len_lower; apply Hall, Hw]. }
  assert (Hprefixes : build_prefixes valid_words rank = [EmptyString]).
  { unfold build_prefixes. destruct valid_words as [|word ws]; [congruence|].
    cbn [fold_left]. rewrite (Hslice word (or_introl eq_refl)). cbn.
    apply build_prefixes_all_empty.
    intros w Hw. apply Hslice. right; exact Hw. }
  assert (Hbuckets : prefix_buckets valid_words rank min_prefix_length
                     = [(EmptyString, valid_words)]).
  { unfold prefix_buckets, build_prefix_to_words. rewrite Hprefixes.
    destruct valid_words as [|word ws] eqn:Hvw; [congruence|].
    cbn [fold_left]. unfold file_word at 2. cbv zeta. rewrite Z.geb_leb.
    destruct (Z.leb_spec rank (len (lower word))) as [_|Hlt];
      [|unfold len in Hlt; lia].
    rewrite (Hslice' word (or_introl eq_refl)). cbn [setdefault_append].
    rewrite build_prefix_to_words_all_empty;
      [reflexivity | exact Hr0 |].
    intros w Hw. apply Hslice'. right; exact Hw. }
  split; [intros word Hw; rewrite (Hslice word Hw); reflexivity|].
  split; [exact Hprefixes|]. split; [exact Hbuckets|].
  intros count tuple_size rng Hts.
  destruct (outcome_total _ _ _ _
              (sorting_spec valid_words rank count tuple_size
                            min_prefix_length (start rng)))
    as (out & w' & Hrun & _ & _ & Hall & _ & Hfull & Hnone).
  { intros e w' (_ & Hneg & _). lia. }
  rewrite Hbuckets in Hall, Hfull, Hnone.
  exists out. split; [unfold run; rewrite Hrun; reflexivity|]. split.
  - intros t Ht. rewrite Forall_forall in Hall.
    destruct (Hall t Ht) as (Hlen & key & bucket & Hlook & Hincl).
    split; [exact Hlen|].
    apply (lookup_In String.eqb string_eqb_eq) in Hlook.
    destruct Hlook as [Heq|[]]. inversion Heq; subst. exact Hincl.
  - split.
    + intros Hfit. apply Hfull; [discriminate|].
      intros key bucket [Heq|[]]. inversion Heq; subst. exact Hfit.
    + intros Hbig. apply Hnone.
      intros key bucket [Heq|[]]. inversion Heq; subst. exact Hbig.
Qed.

Lemma rank_zero_single_bucket_witness :
  (forall word, In word ["apple"; "avocado"; "banana"] ->
                lower (slice_to word 0) = EmptyString)
  /\ build_prefixes ["apple"; "avocado"; "banana"] 0 = [EmptyString]
  /\ prefix_buckets ["apple"; "avocado"; "banana"] 0 2
     = [(EmptyString, ["apple"; "avocado"; "banana"])]
  /\ forall (count tuple_size : Z) (rng : list N),
       0 <= tuple_size ->
       exists out,
         run (generate_sorting_algorithm_words
                ["apple"; "avocado"; "banana"] 0 count tuple_size 2) rng
         = Ok out
         /\ (forall t, In t out ->
               Z.of_nat (List.length t) = tuple_size
               /\ incl t ["apple"; "avocado"; "banana"])
         /\ (tuple_size
             <= Z.of_nat (List.length ["apple"; "avocado"; "banana"]) ->
             List.length out = Z.to_nat count)
         /\ (Z.of_nat (List.length ["apple"; "avocado"; "banana"])
             < tuple_size -> out = []).
Proof.
  apply (rank_zero_single_bucket ["apple"; "avocado"; "banana"] 0 2);
    [discriminate | left; reflexivity].
Defined.

(** Counterexample to C7 as stated, for a negative rank: [word[:-1]] is the word
    without its last character, so "ab" and "cd" keep the prefixes "a" and
    "c", lie in two buckets of one word each, and no pair is ever emitted
    although the list has two words. *)
Lemma negative_rank_counterexample :
  build_prefixes ["ab"; "cd"] (-1) = ["a"; "c"]
  /\ prefix_buckets ["ab"; "cd"] (-1) 2 = [("a", ["ab"]); ("c", ["cd"])]
  /\ run (generate_sorting_algorithm_words ["ab"; "cd"] (-1) 1 2 2) [] = Ok [].
Proof. repeat split. Qed.

(** * The mixed generator *)

Lemma alphabetical_outcome valid_words difficulty_range count ts w :
  outcome
    (generate_alphabetical_order_recall_words valid_words difficulty_range
                                              count ts) w
    (fun out w' =>
       trace w' = Returned (List.length out)
                  :: CallAlphabetical difficulty_range count ts :: trace w
       /\ (List.length out <= Z.to_nat count)%nat)
    (fun e w' =>
       trace w' = CallAlphabetical difficulty_range count ts :: trace w
       /\ ((forall a b, difficulty_range <> PyTuple [a; b])
           \/ keys (build_letter_to_words valid_words) = [])).
Proof.
  destruct difficulty_range as [z|[|a [|b [|c l]]]];
    try (unfold outcome; simpl; split; [reflexivity | left; congruence]).
  eapply outcome_weaken; [apply alphabetical_spec | |].
  - intros out w' (_ & Hle & _ & Ht). auto.
  - intros e w' (Hnil & _ & _ & Ht). auto.
Qed.

Section PrefixFirst.
Variable valid_words : list string.
Variable tuple_size : Z.
Variables probability_goal1 probability_goal2 : Q.
Variable difficulty1 : pyval.
Variable difficulty2 : Z.
Hypothesis Hgoal1 : (probability_goal1 == 0)%Q.
Hypothesis Hgoal2 : (0 <= probability_goal2)%Q.

Lemma draw_never_below_goal1 w :
  outcome (uniform 0 (probability_goal1 + probability_goal2)) w
    (fun r w' => same_ghost w w' /\ Qltb r probability_goal1 = false)
    never.
Proof.
  eapply outcome_weaken;
    [apply uniform_spec with (E := never) | | intros ? ? []].
  intros r w' (Hg & u & H0 & H1 & ->). split; [exact Hg|].
  destruct (Qltb _ probability_goal1) eqn:Hb; [|reflexivity].
  apply Qltb_lt in Hb. exfalso.
  assert (Hprod : (0 <= probability_goal2 * u)%Q)
    by (apply Qmult_le_0_compat; assumption).
  rewrite Hgoal1 in Hb. lra.
Qed.

Lemma mixed_loop_prefix_first : forall n acc w,
  outcome
    (mixed_loop valid_words tuple_size probability_goal1
                (probability_goal1 + probability_goal2)
                difficulty1 difficulty2 n acc) w
    (fun out w' =>
       exists new,
         trace w' = rev new ++ trace w
         /\ prefix_first_rounds difficulty1 difficulty2 tuple_size n new)
    (fun e w' =>
       exists k done tail,
         trace w' = rev (done ++ tail) ++ trace w
         /\ (k < n)%nat
         /\ prefix_first_rounds difficulty1 difficulty2 tuple_size k done
         /\ cut_short difficulty1 difficulty2 tuple_size tail).
Proof.
  induction n as [|n IH]; intros acc w; cbn [mixed_loop].
  - apply outcome_ret. exists []. split; [reflexivity | constructor].
  - apply outcome_bind.
    eapply outcome_weaken; [apply draw_never_below_goal1 | | intros ? ? []].
    intros r w1 ([Ht1 _] & ->). cbv beta iota.
    apply outcome_bind.
    eapply outcome_weaken; [apply sorting_spec | |].
    + intros tuples w2 (_ & Ht2 & _). cbv beta.
      destruct tuples as [|t tuples].
      * apply outcome_bind.
        eapply outcome_weaken; [apply alphabetical_outcome | |].
        -- intros tuples' w3 (Ht3 & _). cbv beta.
           eapply outcome_weaken; [apply IH | |].
           ++ intros out w' (new & Ht & Hnew).
              exists (CallSorting difficulty2 1 tuple_size :: Returned O
                      :: CallAlphabetical difficulty1 1 tuple_size
                      :: Returned (List.length tuples') :: new).
              split; [|constructor; exact Hnew].
              rewrite Ht, Ht3, Ht2, Ht1. simpl.
              rewrite <- !app_assoc. reflexivity.
           ++ intros e w' (k & done & tail & Ht & Hk & Hdone & Htail).
              exists (S k),
                (CallSorting difficulty2 1 tuple_size :: Returned O
                 :: CallAlphabetical difficulty1 1 tuple_size
                 :: Returned (List.length tuples') :: done), tail.
              split; [|split; [lia|split; [constructor; exact Hdone|auto]]].
              rewrite Ht, Ht3, Ht2, Ht1. simpl.
              rewrite <- !app_assoc. reflexivity.
        -- intros e w' (Ht3 & _).
           exists O, [],
             [CallSorting difficulty2 1 tuple_size; Returned O;
              CallAlphabetical difficulty1 1 tuple_size].
           split; [|split; [lia|split; [constructor|right; reflexivity]]].
           rewrite Ht3, Ht2, Ht1. reflexivity.
      * eapply outcome_weaken; [apply IH | |].
        -- intros out w' (new & Ht & Hnew).
           exists (CallSorting difficulty2 1 tuple_size
                   :: Returned (S (List.length tuples)) :: new).
           split; [|constructor; exact Hnew].
           rewrite Ht, Ht2, Ht1. simpl.
           rewrite <- !app_assoc. reflexivity.
        -- intros e w' (k & done & tail & Ht & Hk & Hdone & Htail).
           exists (S k),
             (CallSorting difficulty2 1 tuple_size
              :: Returned (S (List.length tuples)) :: done), tail.
           split; [|split; [lia|split; [constructor; exact Hdone|auto]]].
           rewrite Ht, Ht2, Ht1. simpl.
           rewrite <- !app_assoc. reflexivity.
    + intros e w' (_ & _ & Ht2).
      exists O, [], [CallSorting difficulty2 1 tuple_size].
      split; [|split; [lia|split; [constructor|left; reflexivity]]].
      rewrite Ht2, Ht1. reflexivity.
Qed.
End PrefixFirst.

(** C10.  With [probability_goal1 = 0] and a non-negative
    [probability_goal2] (so also when both are 0 and the draw is exactly 0)
    the draw [r] is never below [probability_goal1].  Every round therefore
    calls the prefix generator first, and the alphabetical generator only
    right after the prefix generator returned no tuple: a run that returns
    consists of [count] such rounds, and a run that raises consists of
    fewer such rounds followed by a round cut short. *)
Theorem zero_goal1_always_prefix_first
    (valid_words : list string) (count tuple_size : Z)
    (probability_goal1 probability_goal2 : Q)
    (difficulty1 : pyval) (difficulty2 : Z) (rng : list N) :
  (probability_goal1 == 0)%Q -> (0 <= probability_goal2)%Q ->
  (forall w r w',
     uniform 0 (probability_goal1 + probability_goal2) w = (Ok r, w') ->
     Qltb r probability_goal1 = false)
  /\ (forall out,
        run (generate_word_tuples valid_words count tuple_size
               probability_goal1 probability_goal2 difficulty1 difficulty2)
            rng = Ok out ->
        prefix_first_rounds difficulty1 difficulty2 tuple_size
          (Z.to_nat count)
          (events (generate_word_tuples valid_words count tuple_size
                     probability_goal1 probability_goal2
                     difficulty1 difficulty2) rng))
  /\ (forall e,
        run (generate_word_tuples valid_words count tuple_size
               probability_goal1 probability_goal2 difficulty1 difficulty2)
            rng = Raise e ->
        exists k done tail,
          events (generate_word_tuples valid_words count tuple_size
                    probability_goal1 probability_goal2
                    difficulty1 difficulty2) rng = done ++ tail
          /\ (k < Z.to_nat count)%nat
          /\ prefix_first_rounds difficulty1 difficulty2 tuple_size k done
          /\ cut_short difficulty1 difficulty2 tuple_size tail).
Proof.
  intros Hgoal1 Hgoal2. split.
  { intros w r w' Hdraw.
    apply (outcome_ok _ _ _ _ _ _
             (draw_never_below_goal1 _ _ Hgoal1 Hgoal2 w) Hdraw). }
  pose proof (mixed_loop_prefix_first valid_words tuple_size
                probability_goal1 probability_goal2 difficulty1 difficulty2
                Hgoal1 Hgoal2 (Z.to_nat count) [] (start rng)) as Hloop.
  unfold run, events, generate_word_tuples. unfold outcome in Hloop.
  destruct (mixed_loop _ _ _ _ _ _ _ _ (start rng)) as [[out|e] w'];
    simpl in *.
  - split; [|intros e He; discriminate].
    intros out' _. destruct Hloop as (new & -> & Hnew).
    rewrite app_nil_r, rev_involutive. exact Hnew.
  - split; [intros out' He; discriminate|].
    intros e' _. destruct Hloop as (k & done & tail & -> & Hk & Hdone & Htail).
    exists k, done, tail. rewrite app_nil_r, rev_involutive. auto.
Qed.

Lemma zero_goal1_always_prefix_first_witness :
  (forall w r w', uniform 0 (0 + 1) w = (Ok r, w') -> Qltb r 0 = false)
  /\ (forall out,
        run (generate_word_tuples
               ["apple"; "avocado"; "banana"; "blueberry"; "cherry"]
               2 2 0 1 (PyTuple [1; 1]) 3) [0; 0; 0; 0; 0; 0; 0]%N = Ok out ->
        prefix_first_rounds (PyTuple [1; 1]) 3 2 (Z.to_nat 2)
          (events (generate_word_tuples
                     ["apple"; "avocado"; "banana"; "blueberry"; "cherry"]
                     2 2 0 1 (PyTuple [1; 1]) 3) [0; 0; 0; 0; 0; 0; 0]%N))
  /\ (forall e,
        run (generate_word_tuples
               ["apple"; "avocado"; "banana"; "blueberry"; "cherry"]
               2 2 0 1 (PyTuple [1; 1]) 3) [0; 0; 0; 0; 0; 0; 0]%N = Raise e ->
        exists k done tail,
          events (generate_word_tuples
                    ["apple"; "avocado"; "banana"; "blueberry"; "cherry"]
                    2 2 0 1 (PyTuple [1; 1]) 3) [0; 0; 0; 0; 0; 0; 0]%N
          = done ++ tail
          /\ (k < Z.to_nat 2)%nat
          /\ prefix_first_rounds (PyTuple [1; 1]) 3 2 k done
          /\ cut_short (PyTuple [1; 1]) 3 2 tail).
Proof.
  apply (zero_goal1_always_prefix_first
           ["apple"; "avocado"; "banana"; "blueberry"; "cherry"]
           2 2 0 1 (PyTuple [1; 1]) 3 [0; 0; 0; 0; 0; 0; 0]%N).
  - reflexivity.
  - discriminate.
Defined.

(** The events of the run in the witness above. *)
Example zero_goal1_events :
  events (generate_word_tuples
            ["apple"; "avocado"; "banana"; "blueberry"; "cherry"]
            2 2 0 1 (PyTuple [1; 1]) 3) [0; 0; 0; 0; 0; 0; 0]%N
  = [CallSorting 3 1 2; Returned 0;
     CallAlphabetical (PyTuple [1; 1]) 1 2; Returned 1;
     CallSorting 3 1 2; Returned 0;
     CallAlphabetical (PyTuple [1; 1]) 1 2; Returned 1].
Proof. reflexivity. Qed.

(** * How many tuples come back *)

Lemma mixed_loop_outcome valid_words ts p1 total d1 d2 : forall n acc w,
  outcome (mixed_loop valid_words ts p1 total d1 d2 n acc) w
    (fun out w' => (List.length out <= List.length acc + n)%nat)
    (fun e w' =>
       ts < 0
       \/ (forall a b, d1 <> PyTuple [a; b])
       \/ keys (build_letter_to_words valid_words) = []).
Proof.
  assert (Halpha : forall w,
    outcome (generate_alphabetical_order_recall_words valid_words d1 1 ts) w
      (fun tuples w' => (List.length tuples <= 1)%nat)
      (fun e w' =>
         ts < 0
         \/ (forall a b, d1 <> PyTuple [a; b])
         \/ keys (build_letter_to_words valid_words) = [])).
  { intros w. eapply outcome_weaken; [apply alphabetical_outcome | |].
    - intros out w' [_ Hle]. exact Hle.
    - intros e w' [_ H]. right. exact H. }
  induction n as [|n IH]; intros acc w; cbn [mixed_loop].
  - apply outcome_ret. lia.
  - apply outcome_bind.
    eapply outcome_weaken;
      [apply uniform_spec with (E := never) | | intros ? ? []].
    intros r w1 _. cbv beta.
    destruct (Qltb r p1).
    + apply outcome_bind.
      eapply outcome_weaken; [apply Halpha | | auto].
      intros tuples w2 Hle. cbv beta in *.
      eapply outcome_weaken; [apply IH | | auto].
      intros out w' Hout. cbv beta in *. rewrite length_app in Hout. lia.
    + apply outcome_bind.
      eapply outcome_weaken; [apply sorting_spec | |].
      * intros tuples w2 (_ & _ & _ & Hle & _). cbv beta.
        destruct tuples as [|t tuples].
        -- apply outcome_bind.
           eapply outcome_weaken; [apply Halpha | | auto].
           intros tuples' w3 Hle'. cbv beta in *.
           eapply outcome_weaken; [apply IH | | auto].
           intros out w' Hout. cbv beta in *.
           rewrite length_app in Hout. lia.
        -- eapply outcome_weaken; [apply IH | | auto].
           intros out w' Hout. cbv beta in *. rewrite length_app in Hout.
           change (Z.to_nat 1) with 1%nat in Hle. lia.
      * intros e w' (_ & Hneg & _). left. exact Hneg.
Qed.

Lemma find_char_in c s i : find_char c s = Some i -> char_in c s = true.
Proof.
  revert i. induction s as [|c' s IH]; simpl; intros i; [discriminate|].
  destruct (Ascii.eqb c c'); [reflexivity|]. simpl.
  destruct (find_char c s) as [j|]; [|discriminate]. intros _. eauto.
Qed.

Lemma letters_present valid_words :
  some_word_starts_with_a_letter valid_words ->
  keys (build_letter_to_words valid_words) <> [].
Proof.
  intros (word & Hin & Hidx).
  assert (Hkey : exists l, In l (keys (build_letter_to_words valid_words))).
  { unfold build_letter_to_words.
    assert (Hmono : forall ws acc l,
      In l (keys acc) -> In l (keys (fold_left file_by_letter ws acc))).
    { induction ws as [|w0 ws IH]; intros acc l Hl; cbn [fold_left];
        [exact Hl|].
      apply IH. destruct w0 as [|c w0]; [exact Hl|].
      unfold file_by_letter. cbv zeta.
      destruct (char_in (lower_char c) ascii_lowercase); [|exact Hl].
      apply (keys_setdefault_append Ascii.eqb ascii_eqb_eq). right. exact Hl. }
    generalize (@nil (ascii * list string)).
    induction valid_words as [|w0 ws IH]; intros acc; [destruct Hin|].
    cbn [fold_left]. destruct Hin as [->|Hin]; [|apply IH, Hin].
    unfold letter_index in Hidx.
    destruct word as [|c word]; [exfalso; apply Hidx; reflexivity|].
    cbn [first_letter] in Hidx. unfold file_by_letter. cbv zeta.
    destruct (find_char (lower_char c) ascii_lowercase) as [i|] eqn:Hf;
      [|exfalso; apply Hidx; reflexivity].
    rewrite (find_char_in _ _ _ Hf). exists (lower_char c).
    apply Hmono.
    apply (keys_setdefault_append Ascii.eqb ascii_eqb_eq). left. reflexivity. }
  destruct Hkey as [l Hl]. intros Hnil. rewrite Hnil in Hl. destruct Hl.
Qed.

(** C8.  Whenever one of the three generators returns, the list it
    returns has at most [count] tuples, and each generator does return when
    the tuple size is not negative, the difficulty of the alphabetical
    generator is a pair and some word starts with a letter.  But the
    generators do not return a list on every input: the alphabetical
    generator raises [IndexError] on a word list without a word that starts
    with a letter, and [generate_word_tuples] raises [TypeError] on every
    word list when [difficulty1] is an integer, as it is by default, and
    the draw selects the alphabetical generator. *)
Theorem length_at_most_count_when_returned
    (valid_words : list string) (count : Z) (rng : list N) :
  (forall difficulty_range tuple_size out,
     run (generate_alphabetical_order_recall_words
            valid_words difficulty_range count tuple_size) rng = Ok out ->
     (List.length out <= Z.to_nat count)%nat)
  /\ (forall rank tuple_size min_prefix_length out,
        run (generate_sorting_algorithm_words
               valid_words rank count tuple_size min_prefix_length) rng
        = Ok out ->
        (List.length out <= Z.to_nat count)%nat)
  /\ (forall tuple_size p1 p2 difficulty1 difficulty2 out,
        run (generate_word_tuples valid_words count tuple_size p1 p2
                                  difficulty1 difficulty2) rng = Ok out ->
        (List.length out <= Z.to_nat count)%nat)
  /\ (forall a b rank tuple_size min_prefix_length p1 p2,
        0 <= tuple_size -> some_word_starts_with_a_letter valid_words ->
        (exists out, run (generate_alphabetical_order_recall_words
                            valid_words (PyTuple [a; b]) count tuple_size) rng
                     = Ok out)
        /\ (exists out, run (generate_sorting_algorithm_words
                               valid_words rank count tuple_size
                               min_prefix_length) rng = Ok out)
        /\ (exists out, run (generate_word_tuples
                               valid_words count tuple_size p1 p2
                               (PyTuple [a; b]) rank) rng = Ok out))
  /\ run (generate_alphabetical_order_recall_words [] (PyTuple [1; 1]) 1 2) rng
     = Raise IndexError
  /\ run (generate_word_tuples valid_words 1 2 1 0 (PyInt 13) 3) rng
     = Raise TypeError.
Proof.
  split.
  { intros dr ts out Hrun.
    apply (run_ok _ _ _ _ _ (alphabetical_outcome valid_words dr count ts
                                                  (start rng)) Hrun). }
  split.
  { intros rank ts mpl out Hrun.
    apply (run_ok _ _ _ _ _ (sorting_spec valid_words rank count ts mpl
                                          (start rng)) Hrun). }
  split.
  { intros ts p1 p2 d1 d2 out Hrun.
    apply (run_ok _ _ _ _ _
             (mixed_loop_outcome valid_words ts p1 (p1 + p2)%Q d1 d2
                                 (Z.to_nat count) [] (start rng)) Hrun). }
  split.
  { intros a b rank ts mpl p1 p2 Hts Hletters.
    apply letters_present in Hletters. split; [|split].
    - destruct (outcome_total _ _ _ _
                  (alphabetical_outcome valid_words (PyTuple [a; b]) count ts
                                        (start rng))) as (out & w' & Hrun & _).
      + intros e w' [_ [Hshape|Hnil]]; [eapply Hshape; reflexivity | auto].
      + exists out. unfold run. rewrite Hrun. reflexivity.
    - destruct (outcome_total _ _ _ _
                  (sorting_spec valid_words rank count ts mpl (start rng)))
        as (out & w' & Hrun & _).
      + intros e w' (_ & Hneg & _). lia.
      + exists out. unfold run. rewrite Hrun. reflexivity.
    - destruct (outcome_total _ _ _ _
                  (mixed_loop_outcome valid_words ts p1 (p1 + p2)%Q
                     (PyTuple [a; b]) rank (Z.to_nat count) [] (start rng)))
        as (out & w' & Hrun & _).
      + intros e w' [Hneg|[Hshape|Hnil]];
          [lia | eapply Hshape; reflexivity | auto].
      + exists out. unfold run, generate_word_tuples. rewrite Hrun.
        reflexivity. }
  split.
  { unfold run. rewrite (alphabetical_empty_raises 1 1 1 2). reflexivity. }
  apply (mixed_integer_difficulty_direct valid_words rng 2 13 3 1).
Qed.

(** * Further properties of the code *)

(** ** The indexes are filters of the word list *)

Section DictRoundTrip.
Context {K V : Type}.
Variable eqb : K -> K -> bool.
Hypothesis eqb_eq : forall a b, eqb a b = true <-> a = b.

Lemma eqb_false_neq a b : eqb a b = false <-> a <> b.
Proof.
  split.
  - intros H Heq. apply eqb_eq in Heq. congruence.
  - intros H. destruct (eqb a b) eqn:Hab; [|reflexivity].
    apply eqb_eq in Hab. contradiction.
Qed.

Lemma lookup_setdefault_append k k' v (d : dict (K := K) (V := V)) :
  lookup eqb k (setdefault_append eqb k' v d)
  = if eqb k k' then Some (bucket_of eqb k d ++ [v]) else lookup eqb k d.
Proof.
  unfold bucket_of. induction d as [|[k0 vs] d IH]; simpl.
  - destruct (eqb k k'); reflexivity.
  - destruct (eqb k' k0) eqn:Hk'; simpl.
    + apply eqb_eq in Hk'. subst k0. destruct (eqb k k'); reflexivity.
    + rewrite IH. destruct (eqb k k0) eqn:Hk0; [|reflexivity].
      destruct (eqb k k') eqn:Hkk'; [|reflexivity].
      apply eqb_eq in Hk0, Hkk'. subst.
      apply eqb_false_neq in Hk'. contradiction.
Qed.

Lemma represents_bucket f (d : dict (K := K) (V := V)) ws k :
  represents eqb f d ws -> bucket_of eqb k d = filter (f k) ws.
Proof.
  intros H. unfold bucket_of. rewrite (H k).
  destruct (filter (f k) ws); reflexivity.
Qed.

Lemma represents_snoc f (d d' : dict (K := K) (V := V)) ws w :
  represents eqb f d ws ->
  (forall k, lookup eqb k d'
             = if f k w then Some (bucket_of eqb k d ++ [w])
               else lookup eqb k d) ->
  represents eqb f d' (ws ++ [w]).
Proof.
  intros Hd Hstep k. rewrite Hstep, filter_app. cbn [filter].
  rewrite (represents_bucket f d ws k Hd).
  destruct (f k w).
  - destruct (filter (f k) ws); reflexivity.
  - rewrite app_nil_r. apply Hd.
Qed.
End DictRoundTrip.

Lemma build_letter_to_words_represents valid_words :
  represents Ascii.eqb starts_with_letter
             (build_letter_to_words valid_words) valid_words.
Proof.
  unfold build_letter_to_words.
  induction valid_words as [|word ws IH] using rev_ind.
  - intros k. reflexivity.
  - rewrite fold_left_app. cbn [fold_left].
    eapply (represents_snoc Ascii.eqb); [exact IH|].
    intros k. destruct word as [|c word]; [reflexivity|].
    unfold file_by_letter, starts_with_letter. cbv zeta.
    destruct (char_in (lower_char c) ascii_lowercase) eqn:Hc.
    + rewrite (lookup_setdefault_append Ascii.eqb ascii_eqb_eq).
      rewrite (Ascii.eqb_sym (lower_char c) k).
      destruct (Ascii.eqb k (lower_char c)) eqn:Hk; [|reflexivity].
      apply Ascii.eqb_eq in Hk. subst k. rewrite Hc. reflexivity.
    + destruct (Ascii.eqb (lower_char c) k) eqn:Hk; [|reflexivity].
      apply Ascii.eqb_eq in Hk. subst k. rewrite Hc. reflexivity.
Qed.

(** X1.  The letter index is a filter of the word list: the bucket of a
    letter holds exactly the words whose lower-cased first character is
    that letter, as often and in the order they stand in the list, and a
    letter without such a word is no key.  Empty words and words that start
    with another character are in no bucket. *)
Theorem letter_buckets_are_filters (valid_words : list string) (l : ascii) :
  lookup Ascii.eqb l (build_letter_to_words valid_words)
  = as_bucket (filter (starts_with_letter l) valid_words).
Proof. apply build_letter_to_words_represents. Qed.

Lemma set_insert_NoDup {A} (eqb : A -> A -> bool)
    (eqb_eq : forall a b, eqb a b = true <-> a = b) x s :
  NoDup s -> NoDup (set_insert eqb x s).
Proof.
  intros Hs. unfold set_insert. destruct (mem eqb x s) eqn:Hm; [exact Hs|].
  apply NoDup_app; [exact Hs | repeat constructor; intros [] |].
  intros y Hy [<-|[]]. apply (mem_In eqb eqb_eq) in Hy. congruence.
Qed.

Lemma build_prefixes_NoDup valid_words rank :
  NoDup (build_prefixes valid_words rank).
Proof.
  unfold build_prefixes. generalize (NoDup_nil string).
  generalize (@nil string).
  induction valid_words as [|word ws IH]; intros acc Hacc; cbn [fold_left];
    [exact Hacc|].
  apply IH. apply set_insert_NoDup; [apply string_eqb_eq | exact Hacc].
Qed.

Lemma build_prefixes_complete valid_words rank word :
  In word valid_words ->
  In (lower (slice_to word rank)) (build_prefixes valid_words rank).
Proof.
  unfold build_prefixes.
  assert (Hkeep : forall ws acc x,
    In x acc ->
    In x (fold_left
            (fun prefixes word =>
               set_insert String.eqb (lower (slice_to word rank)) prefixes)
            ws acc)).
  { induction ws as [|w0 ws IH]; intros acc x Hx; cbn [fold_left]; [exact Hx|].
    apply IH. unfold set_insert.
    destruct (mem String.eqb _ acc); [exact Hx | apply in_or_app; auto]. }
  generalize (@nil string).
  induction valid_words as [|w0 ws IH]; intros acc Hin; [destruct Hin|].
  cbn [fold_left]. destruct Hin as [->|Hin]; [|apply IH, Hin].
  apply Hkeep. unfold set_insert.
  destruct (mem String.eqb _ acc) eqn:Hm.
  - apply (mem_In String.eqb string_eqb_eq) in Hm. exact Hm.
  - apply in_or_app. right. left. reflexivity.
Qed.

Lemma short_word_filing word_lower word prefixes :
  forall d : dict (K := string) (V := string),
  NoDup prefixes ->
  forall k,
    lookup String.eqb k
      (fold_left
         (fun prefix_to_words prefix =>
            if startswith prefix word_lower
            then setdefault_append String.eqb prefix word prefix_to_words
            else prefix_to_words)
         prefixes d)
    = if mem String.eqb k prefixes && startswith k word_lower
      then Some (bucket_of String.eqb k d ++ [word])
      else lookup String.eqb k d.
Proof.
  induction prefixes as [|p ps IH]; intros d Hnd k; cbn [fold_left].
  - reflexivity.
  - inversion Hnd as [|? ? Hp Hps]; subst. rewrite (IH _ Hps).
    unfold mem. cbn [existsb]. fold (mem String.eqb k ps).
    destruct (String.eqb k p) eqn:Hkp.
    + apply String.eqb_eq in Hkp. subst k.
      assert (Hmem : mem String.eqb p ps = false).
      { destruct (mem String.eqb p ps) eqn:Hm; [|reflexivity].
        apply (mem_In String.eqb string_eqb_eq) in Hm. contradiction. }
      rewrite Hmem. cbn [orb andb].
      destruct (startswith p word_lower); [|reflexivity].
      rewrite (lookup_setdefault_append String.eqb string_eqb_eq).
      rewrite String.eqb_refl. reflexivity.
    + cbn [orb].
      assert (Hsame : lookup String.eqb k
                        (if startswith p word_lower
                         then setdefault_append String.eqb p word d else d)
                      = lookup String.eqb k d).
      { destruct (startswith p word_lower); [|reflexivity].
        rewrite (lookup_setdefault_append String.eqb string_eqb_eq).
        rewrite Hkp. reflexivity. }
      unfold bucket_of. rewrite Hsame. reflexivity.
Qed.

Lemma build_prefix_to_words_represents valid_words rank mpl prefixes :
  NoDup prefixes ->
  represents String.eqb (files_under rank mpl prefixes)
             (build_prefix_to_words valid_words rank mpl prefixes)
             valid_words.
Proof.
  intros Hnd. unfold build_prefix_to_words.
  induction valid_words as [|word ws IH] using rev_ind.
  - intros k. reflexivity.
  - rewrite fold_left_app. cbn [fold_left].
    eapply (represents_snoc String.eqb); [exact IH|].
    intros k. unfold file_word, files_under. cbv zeta.
    destruct (len (lower word) >=? rank).
    + rewrite (lookup_setdefault_append String.eqb string_eqb_eq).
      rewrite (String.eqb_sym (slice_to (lower word) rank) k). reflexivity.
    + destruct (len (lower word) >? mpl); cbn [andb]; [|reflexivity].
      apply short_word_filing. exact Hnd.
Qed.

(** X2.  The prefix index is a filter of the word list: the bucket of a
    key holds exactly the words that lines 128-135 file under it (a word at
    least [rank] long under its lower-cased first [rank] characters, a
    shorter word longer than [min_prefix_length] under every prefix of the
    set that starts with it), as often and in the order they stand in the
    list; a key without such a word is absent. *)
Theorem prefix_buckets_are_filters
    (valid_words : list string) (rank min_prefix_length : Z) (key : string) :
  lookup String.eqb key (prefix_buckets valid_words rank min_prefix_length)
  = as_bucket
      (filter (files_under rank min_prefix_length
                           (build_prefixes valid_words rank) key)
              valid_words).
Proof.
  apply build_prefix_to_words_represents, build_prefixes_NoDup.
Qed.

Lemma prefix_refl s : String.prefix s s = true.
Proof.
  induction s as [|c s IH]; simpl; [reflexivity|].
  destruct (ascii_dec c c); [exact IH | congruence].
Qed.

(** X3.  Which words the prefix index reaches.  A word of the list at
    least [rank] long lies in the bucket of its lower-cased first [rank]
    characters; a shorter word longer than [min_prefix_length] lies in the
    bucket of its own lower-cased form; a word shorter than [rank] and not
    longer than [min_prefix_length] lies in no bucket, so it is never part
    of a tuple. *)
Theorem prefix_index_coverage
    (valid_words : list string) (rank min_prefix_length : Z)
    (word : string) :
  In word valid_words ->
  (rank <= len word ->
   In word (bucket_of String.eqb (slice_to (lower word) rank)
                      (prefix_buckets valid_words rank min_prefix_length)))
  /\ (min_prefix_length < len word < rank ->
      In word (bucket_of String.eqb (lower word)
                         (prefix_buckets valid_words rank min_prefix_length)))
  /\ (len word < rank -> len word <= min_prefix_length ->
      forall key,
        ~ In word (bucket_of String.eqb key
                     (prefix_buckets valid_words rank min_prefix_length))).
Proof.
  intros Hin.
  assert (Hbucket : forall key,
    bucket_of String.eqb key
              (prefix_buckets valid_words rank min_prefix_length)
    = filter (files_under rank min_prefix_length
                          (build_prefixes valid_words rank) key)
             valid_words).
  { intros key. apply (represents_bucket String.eqb).
    apply build_prefix_to_words_represents, build_prefixes_NoDup. }
  split; [|split].
  - intros Hlong. rewrite Hbucket. apply filter_In. split; [exact Hin|].
    unfold files_under. cbv zeta. rewrite len_lower, Z.geb_leb.
    destruct (Z.leb_spec rank (len word)); [|lia]. apply String.eqb_refl.
  - intros [Hmin Hshort]. rewrite Hbucket. apply filter_In.
    split; [exact Hin|].
    unfold files_under. cbv zeta. rewrite len_lower, Z.geb_leb, Z.gtb_ltb.
    destruct (Z.leb_spec rank (len word)); [lia|].
    destruct (Z.ltb_spec min_prefix_length (len word)); [|lia].
    cbn [andb]. unfold startswith. rewrite prefix_refl, andb_true_r.
    apply (mem_In String.eqb string_eqb_eq).
    pose proof (build_prefixes_complete valid_words rank word Hin) as Hp.
    unfold slice_to in Hp. destruct (Z.leb_spec 0 rank); [|unfold len in *; lia].
    rewrite take_all in Hp by (unfold len in *; lia). exact Hp.
  - intros Hshort Hmin key. rewrite Hbucket, filter_In. intros [_ Hf].
    unfold files_under in Hf. cbv zeta in Hf.
    rewrite len_lower, Z.geb_leb, Z.gtb_ltb in Hf.
    destruct (Z.leb_spec rank (len word)); [lia|].
    destruct (Z.ltb_spec min_prefix_length (len word)); [lia|].
    discriminate.
Qed.

Lemma prefix_index_coverage_witness :
  (3 <= len "apple" ->
   In "apple" (bucket_of String.eqb (slice_to (lower "apple") 3)
                 (prefix_buckets ["apple"; "Apply"; "ape"; "a"] 3 2)))
  /\ (2 < len "apple" < 3 ->
      In "apple" (bucket_of String.eqb (lower "apple")
                    (prefix_buckets ["apple"; "Apply"; "ape"; "a"] 3 2)))
  /\ (len "apple" < 3 -> len "apple" <= 2 ->
      forall key,
        ~ In "apple" (bucket_of String.eqb key
                        (prefix_buckets ["apple"; "Apply"; "ape"; "a"] 3 2))).
Proof.
  apply (prefix_index_coverage ["apple"; "Apply"; "ape"; "a"] 3 2 "apple").
  left. reflexivity.
Defined.

(** ** The letters the anchor is chosen from *)

Lemma keys_setdefault_append_NoDup {K V : Type} (eqb : K -> K -> bool)
    (eqb_eq : forall a b, eqb a b = true <-> a = b) k (v : V)
    (d : dict (K := K) (V := V)) :
  NoDup (keys d) -> NoDup (keys (setdefault_append eqb k v d)).
Proof.
  induction d as [|[k0 vs] d IH]; simpl; intros Hnd.
  - repeat constructor. intros [].
  - inversion Hnd as [|? ? Hk0 Hd]; subst.
    destruct (eqb k k0) eqn:Hk; simpl; [constructor; assumption|].
    constructor; [|apply IH, Hd].
    intros Hin. apply (keys_setdefault_append eqb eqb_eq) in Hin.
    destruct Hin as [->|Hin]; [|contradiction].
    assert (eqb k k = true) by (apply eqb_eq; reflexivity). congruence.
Qed.

Lemma build_letter_to_words_keys_NoDup valid_words :
  NoDup (keys (build_letter_to_words valid_words)).
Proof.
  unfold build_letter_to_words.
  assert (Hnil : NoDup (keys (@nil (ascii * list string)))) by constructor.
  revert Hnil. generalize (@nil (ascii * list string)).
  induction valid_words as [|word ws IH]; intros d Hd; cbn [fold_left];
    [exact Hd|].
  apply IH. destruct word as [|c word]; [exact Hd|].
  unfold file_by_letter. cbv zeta.
  destruct (char_in (lower_char c) ascii_lowercase); [|exact Hd].
  apply keys_setdefault_append_NoDup; [apply ascii_eqb_eq | exact Hd].
Qed.

Lemma insert_sorted_Permutation c l : Permutation (c :: l) (insert_sorted c l).
Proof.
  induction l as [|c' l IH]; simpl; [reflexivity|].
  destruct (N_of_ascii c <=? N_of_ascii c')%N; [reflexivity|].
  rewrite perm_swap. apply perm_skip, IH.
Qed.

Lemma sorted_Permutation l : Permutation l (sorted l).
Proof.
  induction l as [|c l IH]; simpl; [reflexivity|].
  rewrite <- insert_sorted_Permutation. apply perm_skip, IH.
Qed.

Lemma insert_sorted_ordered c l :
  StronglySorted (fun a b => (N_of_ascii a <= N_of_ascii b)%N) l ->
  StronglySorted (fun a b => (N_of_ascii a <= N_of_ascii b)%N)
                 (insert_sorted c l).
Proof.
  induction 1 as [|c' l Hl IH Hc']; simpl.
  - repeat constructor.
  - destruct (N.leb_spec (N_of_ascii c) (N_of_ascii c')) as [Hle|Hgt].
    + constructor; [constructor; assumption|].
      constructor; [exact Hle|].
      rewrite Forall_forall in *. intros x Hx. specialize (Hc' x Hx). lia.
    + constructor; [exact IH|].
      rewrite Forall_forall in *. intros x Hx.
      apply insert_sorted_In in Hx. destruct Hx as [->|Hx]; [lia|auto].
Qed.

Lemma sorted_ordered l :
  StronglySorted (fun a b => (N_of_ascii a <= N_of_ascii b)%N) (sorted l).
Proof.
  induction l as [|c l IH]; simpl; [constructor|].
  apply insert_sorted_ordered, IH.
Qed.

Lemma ordered_NoDup_ascending l :
  StronglySorted (fun a b => (N_of_ascii a <= N_of_ascii b)%N) l ->
  NoDup l -> ascending l.
Proof.
  unfold ascending. induction 1 as [|c l Hl IH Hc]; intros Hnd;
    [constructor|].
  inversion Hnd as [|? ? Hnotin Hnd']; subst.
  constructor; [apply IH, Hnd'|].
  rewrite Forall_forall in *. intros x Hx. specialize (Hc x Hx).
  assert (Hne : N_of_ascii c <> N_of_ascii x).
  { intros Heq. apply (f_equal ascii_of_N) in Heq.
    rewrite !ascii_N_embedding in Heq. subst. contradiction. }
  lia.
Qed.

Lemma letter_key_iff valid_words l :
  In l (keys (build_letter_to_words valid_words))
  <-> exists word, In word valid_words /\ starts_with_letter l word = true.
Proof.
  pose proof (build_letter_to_words_represents valid_words l) as Hl.
  split.
  - intros Hin.
    destruct (keys_lookup Ascii.eqb ascii_eqb_eq _ _ Hin) as [bucket Hb].
    rewrite Hb in Hl.
    destruct (filter (starts_with_letter l) valid_words) as [|word rest]
      eqn:Hf; [discriminate|].
    assert (Hw : In word (filter (starts_with_letter l) valid_words))
      by (rewrite Hf; left; reflexivity).
    apply filter_In in Hw. exists word. exact Hw.
  - intros (word & Hin & Hs).
    assert (Hw : In word (filter (starts_with_letter l) valid_words))
      by (apply filter_In; auto).
    destruct (filter (starts_with_letter l) valid_words) as [|w0 rest];
      [destruct Hw|].
    apply (lookup_keys Ascii.eqb ascii_eqb_eq _ _ _ Hl).
Qed.

(** X4.  The list of letters the anchor letter is chosen from (line 43)
    is in strictly ascending alphabetical order, so it names no letter
    twice, and it names exactly the letters that some word of the list
    starts with, in either case. *)
Theorem letters_ascending_and_exact (valid_words : list string) :
  ascending (sorted (keys (build_letter_to_words valid_words)))
  /\ forall l,
       In l (sorted (keys (build_letter_to_words valid_words)))
       <-> exists word,
             In word valid_words /\ starts_with_letter l word = true.
Proof.
  split.
  - apply ordered_NoDup_ascending; [apply sorted_ordered|].
    eapply Permutation_NoDup; [apply sorted_Permutation|].
    apply build_letter_to_words_keys_NoDup.
  - intros l. rewrite sorted_In. apply letter_key_iff.
Qed.

(** ** The range of distances *)

(** X5.  Lines 29-33 always leave a range that is not empty, with its
    lower end at most 25 and its upper end at least 1, so the distance of
    line 61 can always be drawn; and for two ends given within 1..25, in
    either order, the range is the smaller and the larger of the two
    ("swap if inverted"). *)
Theorem normalize_range_swaps_in_band (a b : Z) (rng : list N) :
  1 <= a <= 25 -> 1 <= b <= 25 ->
  run (normalize_range (PyTuple [a; b])) rng = Ok (Z.min a b, Z.max a b)
  /\ forall a' b',
       exists lo hi,
         run (normalize_range (PyTuple [a'; b'])) rng = Ok (lo, hi)
         /\ lo <= hi /\ lo <= 25 /\ 1 <= hi.
Proof.
  intros Ha Hb. unfold run. split.
  - rewrite normalize_range_pair. cbn [fst]. unfold normalized.
    destruct (Z.gtb_spec (Z.max 1 a) (Z.min 25 b)); f_equal; f_equal; lia.
  - intros a' b'. rewrite normalize_range_pair. cbn [fst].
    unfold normalized.
    destruct (Z.gtb_spec (Z.max 1 a') (Z.min 25 b'));
      eexists; eexists; (split; [reflexivity | lia]).
Qed.

Lemma normalize_range_swaps_in_band_witness :
  run (normalize_range (PyTuple [7; 3])) [] = Ok (Z.min 7 3, Z.max 7 3)
  /\ forall a' b',
       exists lo hi,
         run (normalize_range (PyTuple [a'; b'])) [] = Ok (lo, hi)
         /\ lo <= hi /\ lo <= 25 /\ 1 <= hi.
Proof.
  apply (normalize_range_swaps_in_band 7 3 []); lia.
Defined.

(** ** When the alphabetical generator returns *)

Lemma alphabetical_no_letters_raises valid_words a b p ts w :
  keys (build_letter_to_words valid_words) = [] ->
  generate_alphabetical_order_recall_words valid_words (PyTuple [a; b])
                                           (Z.pos p) ts w
  = (Raise IndexError,
     logged (CallAlphabetical (PyTuple [a; b]) (Z.pos p) ts) w).
Proof.
  intros Hkeys.
  unfold generate_alphabetical_order_recall_words, bind, log.
  rewrite normalize_range_pair. destruct (normalized a b) as [lo hi].
  cbv zeta. rewrite Hkeys.
  destruct (Pos2Nat.is_succ p) as [n Hn]. simpl Z.to_nat. rewrite Hn.
  reflexivity.
Qed.

Lemma starts_with_letter_index l word :
  starts_with_letter l word = true -> letter_index word <> None.
Proof.
  destruct word as [|c word]; [discriminate|].
  unfold starts_with_letter, letter_index. cbn [first_letter].
  intros H. apply andb_true_iff in H. destruct H as [Hl Hc].
  apply Ascii.eqb_eq in Hl. subst l.
  destruct (char_in_find _ _ Hc) as [i Hi]. rewrite Hi. discriminate.
Qed.

Lemma letters_present_iff valid_words :
  some_word_starts_with_a_letter valid_words
  <-> keys (build_letter_to_words valid_words) <> [].
Proof.
  split; [apply letters_present|].
  intros Hne.
  destruct (keys (build_letter_to_words valid_words)) as [|l ls] eqn:Hk;
    [congruence|].
  assert (Hl : In l (keys (build_letter_to_words valid_words)))
    by (rewrite Hk; left; reflexivity).
  apply letter_key_iff in Hl. destruct Hl as (word & Hin & Hs).
  exists word. split; [exact Hin | eapply starts_with_letter_index; eauto].
Qed.

(** X6.  What a call of the alphabetical generator comes to, for every
    input.  It returns a list exactly when [difficulty_range] is a pair and
    either [count] is not positive or some word of the list starts with a
    letter.  Otherwise it raises: [TypeError] for an integer range,
    [ValueError] for a tuple that is not a pair, and [IndexError] (from
    [random.choice] on the empty list of letters) for a pair with a
    positive count and no word that starts with a letter. *)
Theorem alphabetical_outcomes
    (valid_words : list string) (difficulty_range : pyval)
    (count tuple_size : Z) (rng : list N) :
  match run (generate_alphabetical_order_recall_words
               valid_words difficulty_range count tuple_size) rng with
  | Ok _ =>
      (exists a b, difficulty_range = PyTuple [a; b])
      /\ (count <= 0 \/ some_word_starts_with_a_letter valid_words)
  | Raise TypeError => exists z, difficulty_range = PyInt z
  | Raise ValueError =>
      exists l, difficulty_range = PyTuple l /\ List.length l <> 2%nat
  | Raise IndexError =>
      (exists a b, difficulty_range = PyTuple [a; b])
      /\ 0 < count /\ ~ some_word_starts_with_a_letter valid_words
  | Raise KeyError => False
  end.
Proof.
  destruct difficulty_range as [z|[|a [|b [|c l]]]];
    try (unfold run; simpl; eauto; fail);
    try (unfold run; simpl; eexists; split; [reflexivity | simpl; lia]).
  pose proof (alphabetical_spec valid_words a b count tuple_size (start rng))
    as Hspec.
  unfold run. unfold outcome in Hspec.
  destruct (generate_alphabetical_order_recall_words _ _ _ _ (start rng))
    as [[out|e] w'] eqn:Hg; cbn [fst].
  - split; [eauto|]. destruct (Z.leb_spec count 0) as [Hle|Hpos]; [left; exact Hle|].
    right. apply letters_present_iff. intros Hnil.
    destruct count as [|p|p]; try lia.
    rewrite (alphabetical_no_letters_raises _ _ _ _ _ _ Hnil) in Hg.
    discriminate.
  - destruct Hspec as (Hnil & -> & Hpos & _).
    split; [eauto|]. split; [exact Hpos|].
    intros Hsome. apply letters_present_iff in Hsome. contradiction.
Qed.

(** ** The words of an alphabetical tuple *)

Lemma outcome_trivial {A} (m : M A) w : outcome m w (fun _ _ => True) anyhow.
Proof. unfold outcome, anyhow. destruct (m w) as [[a|e] w']; exact I. Qed.

Lemma outcome_and {A} (m : M A) w P1 P2 E1 E2 :
  outcome m w P1 E1 -> outcome m w P2 E2 ->
  outcome m w (fun a w' => P1 a w' /\ P2 a w')
              (fun e w' => E1 e w' /\ E2 e w').
Proof. unfold outcome. destruct (m w) as [[a|e] w']; auto. Qed.

Section WordsOfATuple.
Variables lo hi : Z.
Variable ltw : dict (K := ascii) (V := string).
Variable ts : Z.
Variable Q : string -> Prop.
Hypothesis Hbuckets :
  forall l bucket, lookup Ascii.eqb l ltw = Some bucket -> Forall Q bucket.

Lemma chosen_word_spec l w :
  outcome (bucket <- getitem Ascii.eqb ltw l ;; choice bucket) w
          (fun word _ => Q word) anyhow.
Proof.
  apply outcome_bind.
  eapply outcome_weaken;
    [apply (getitem_spec Ascii.eqb) | | intros; exact I].
  intros bucket w1 [-> Hlook]. cbv beta.
  eapply outcome_weaken; [apply choice_spec | | intros; exact I].
  intros word w2 [_ Hin]. cbv beta.
  specialize (Hbuckets _ _ Hlook). rewrite Forall_forall in Hbuckets. auto.
Qed.

Lemma fill_slots_words si : forall slots wit used w,
  Forall Q wit ->
  outcome (fill_slots lo hi ltw si slots wit used) w
          (fun r _ => Forall Q r) anyhow.
Proof.
  induction slots as [|slots IH]; intros wit used w Hwit; cbn [fill_slots].
  - apply outcome_ret. exact Hwit.
  - apply outcome_bind.
    eapply outcome_weaken; [apply outcome_trivial | | auto].
    intros l0 w1 _. cbv beta. apply outcome_bind.
    eapply outcome_weaken; [apply outcome_trivial | | auto].
    intros [l a] w2 _. cbv beta iota.
    destruct (a >=? 26).
    + unfold outcome, bind, abandon, ret. exact Hwit.
    + pose proof (chosen_word_spec l w2) as Hword.
      unfold outcome, bind in *.
      destruct (getitem Ascii.eqb ltw l w2) as [[bucket|e] w3]; [|exact I].
      destruct (choice bucket w3) as [[word|e] w4]; [|exact I].
      apply IH. apply Forall_app. split; [exact Hwit|].
      constructor; [exact Hword | constructor].
Qed.

Lemma gather_tuple_words letters w :
  outcome (gather_tuple lo hi ltw ts letters) w
          (fun r _ => Forall Q r) anyhow.
Proof.
  unfold gather_tuple. apply outcome_bind.
  eapply outcome_weaken; [apply outcome_trivial | | auto].
  intros start_letter w1 _. cbv beta. apply outcome_bind.
  eapply outcome_weaken; [apply outcome_trivial | | auto].
  intros si w2 _. cbv beta.
  pose proof (chosen_word_spec start_letter w2) as Hword.
  unfold outcome, bind in *.
  destruct (getitem Ascii.eqb ltw start_letter w2) as [[bucket|e] w3];
    [|exact I].
  destruct (choice bucket w3) as [[word|e] w4]; [|exact I].
  apply fill_slots_words. constructor; [exact Hword | constructor].
Qed.

Lemma alphabetical_loop_words letters : forall n acc w,
  Forall (Forall Q) acc ->
  outcome (alphabetical_loop lo hi ltw ts letters n acc) w
          (fun out _ => Forall (Forall Q) out) anyhow.
Proof.
  induction n as [|n IH]; intros acc w Hacc; cbn [alphabetical_loop].
  - apply outcome_ret. exact Hacc.
  - apply outcome_bind.
    eapply outcome_weaken; [apply gather_tuple_words | | auto].
    intros r w1 Hr. cbv beta.
    destruct (Z.of_nat (List.length r) =? ts); apply IH; [|exact Hacc].
    apply Forall_app. split; [exact Hacc | constructor; [exact Hr|constructor]].
Qed.
End WordsOfATuple.

Lemma alphabetical_words_outcome valid_words difficulty_range count ts w :
  outcome
    (generate_alphabetical_order_recall_words valid_words difficulty_range
                                              count ts) w
    (fun out _ =>
       Forall (fun t => Z.of_nat (List.length t) = ts
                        /\ Forall (fun word => In word valid_words) t) out)
    anyhow.
Proof.
  destruct difficulty_range as [z|[|a [|b [|c l]]]];
    try (unfold outcome; simpl; exact I).
  assert (Hwords :
    outcome
      (generate_alphabetical_order_recall_words valid_words (PyTuple [a; b])
                                                count ts) w
      (fun out _ => Forall (Forall (fun word => In word valid_words)) out)
      anyhow).
  { unfold generate_alphabetical_order_recall_words.
    apply outcome_bind. unfold log at 1. unfold outcome at 1.
    apply outcome_bind. unfold outcome at 1. rewrite normalize_range_pair.
    destruct (normalized a b) as [lo hi]. cbv zeta. apply outcome_bind.
    eapply outcome_weaken.
    + apply (alphabetical_loop_words lo hi (build_letter_to_words valid_words)
               ts (fun word => In word valid_words)); [|constructor].
      intros l bucket Hlook.
      rewrite (build_letter_to_words_represents valid_words l) in Hlook.
      destruct (filter (starts_with_letter l) valid_words) as [|w0 rest]
        eqn:Hf; [discriminate|].
      inversion Hlook; subst bucket. rewrite <- Hf.
      apply Forall_forall. intros x Hx. apply filter_In in Hx. apply Hx.
    + intros out w' Hout. cbv beta. unfold outcome, bind, log, ret.
      exact Hout.
    + intros; exact I. }
  eapply outcome_weaken;
    [apply (outcome_and _ _ _ _ _ _
              (alphabetical_spec valid_words a b count ts w) Hwords)
    | | intros; exact I].
  intros out w' [(Hok & _) Hall]. cbv beta in *.
  rewrite Forall_forall in *. intros t Ht. split; [apply Hok, Ht|].
  apply Hall, Ht.
Qed.

(** X7.  The words of every tuple the alphabetical generator emits are
    words of the word list, handed out as they stand in the list (no
    lower-casing, no trimming). *)
Theorem alphabetical_words_come_from_the_list
    (valid_words : list string) (difficulty_range : pyval)
    (count tuple_size : Z) (rng : list N) (out : list word_tuple)
    (t : word_tuple) (word : string) :
  run (generate_alphabetical_order_recall_words
         valid_words difficulty_range count tuple_size) rng = Ok out ->
  In t out -> In word t -> In word valid_words.
Proof.
  intros Hrun Ht Hword.
  pose proof (run_ok _ _ _ _ _
                (alphabetical_words_outcome valid_words difficulty_range
                                            count tuple_size (start rng))
                Hrun) as Hall.
  rewrite Forall_forall in Hall. destruct (Hall t Ht) as [_ Hwords].
  rewrite Forall_forall in Hwords. apply Hwords, Hword.
Qed.

Lemma alphabetical_words_come_from_the_list_witness :
  In "Banana" ["apple"; "Avocado"; "Banana"; "cherry"].
Proof.
  apply (alphabetical_words_come_from_the_list
           ["apple"; "Avocado"; "Banana"; "cherry"] (PyTuple [1; 1]) 1 2
           [0; 1; 0]%N [["Avocado"; "Banana"]] ["Avocado"; "Banana"]).
  - reflexivity.
  - left. reflexivity.
  - right. left. reflexivity.
Defined.

(** ** The sizes of tuple the alphabetical generator can emit *)

Lemma find_char_get c s : forall n,
  find_char c s = Some n -> String.get n s = Some c.
Proof.
  induction s as [|c' s IH]; simpl; intros n; [discriminate|].
  destruct (Ascii.eqb c c') eqn:Hc.
  - intros [= <-]. apply Ascii.eqb_eq in Hc. subst. reflexivity.
  - destruct (find_char c s) as [m|]; [|discriminate].
    intros [= <-]. apply IH. reflexivity.
Qed.

Lemma letter_index_first_letter w1 w2 i :
  letter_index w1 = Some i -> letter_index w2 = Some i ->
  first_letter w1 = first_letter w2.
Proof.
  unfold letter_index.
  destruct (first_letter w1) as [c1|]; [|discriminate].
  destruct (first_letter w2) as [c2|]; [|discriminate].
  destruct (find_char c1 ascii_lowercase) as [n1|] eqn:H1; [|discriminate].
  destruct (find_char c2 ascii_lowercase) as [n2|] eqn:H2; [|discriminate].
  simpl. intros [= <-] [= Hn]. apply Nat2Z.inj in Hn. subst n2.
  apply find_char_get in H1, H2. congruence.
Qed.

Lemma NoDup_Z_range (l : list Z) lo hi :
  NoDup l -> (forall x, In x l -> lo <= x <= hi) ->
  Z.of_nat (List.length l) <= Z.max 0 (hi - lo + 1).
Proof.
  intros Hnd Hrange.
  assert (Hincl : incl l (map (fun k => lo + Z.of_nat k)
                              (seq 0 (Z.to_nat (hi - lo + 1))))).
  { intros x Hx. specialize (Hrange x Hx). apply in_map_iff.
    exists (Z.to_nat (x - lo)). split; [lia|]. apply in_seq. lia. }
  apply NoDup_incl_length in Hincl; [|exact Hnd].
  rewrite length_map, length_seq in Hincl. lia.
Qed.

(** The indexes of words with pairwise distinct starting letters. *)
Lemma distinct_letters_distinct_indexes (t : list string) :
  NoDup (map first_letter t) ->
  (forall word, In word t -> exists i, letter_index word = Some i
                                       /\ 0 <= i < 26) ->
  exists idx, List.length idx = List.length t /\ NoDup idx
              /\ (forall i, In i idx ->
                    0 <= i < 26
                    /\ exists word, In word t /\ letter_index word = Some i).
Proof.
  induction t as [|w0 t IH]; intros Hnd Hall.
  - exists []. split; [reflexivity|]. split; [constructor|].
    intros x [].
  - inversion Hnd as [|? ? Hnotin Hnd']; subst.
    destruct IH as (idx & Hlen & Hidx & Hback);
      [exact Hnd' | intros w Hw; apply Hall; right; exact Hw|].
    destruct (Hall w0 (or_introl eq_refl)) as (i0 & Hi0 & Hr0).
    exists (i0 :: idx). split; [simpl; congruence|]. split.
    + constructor; [|exact Hidx]. intros Hin.
      destruct (Hback _ Hin) as (_ & w & Hw & Hiw).
      apply Hnotin. rewrite (letter_index_first_letter w0 w i0 Hi0 Hiw).
      apply in_map. exact Hw.
    + intros i [<-|Hi].
      * split; [exact Hr0|]. exists w0. split; [left; reflexivity | exact Hi0].
      * destruct (Hback _ Hi) as (Hr & w & Hw & Hiw).
        split; [exact Hr|]. exists w. split; [right; exact Hw | exact Hiw].
Qed.

(** The distances of words with pairwise distinct starting letters. *)
Lemma distinct_letters_distinct_distances lo hi ia (rest : list string) :
  NoDup (map first_letter rest) ->
  (forall word, In word rest ->
     exists iw d, letter_index word = Some iw
                  /\ lo <= d <= hi /\ iw = (ia + d) mod 26) ->
  exists ds, List.length ds = List.length rest /\ NoDup ds
             /\ (forall d, In d ds ->
                   lo <= d <= hi
                   /\ exists word, In word rest
                        /\ letter_index word = Some ((ia + d) mod 26)).
Proof.
  induction rest as [|w0 rest IH]; intros Hnd Hall.
  - exists []. split; [reflexivity|]. split; [constructor|].
    intros x [].
  - inversion Hnd as [|? ? Hnotin Hnd']; subst.
    destruct IH as (ds & Hlen & Hds & Hback);
      [exact Hnd' | intros w Hw; apply Hall; right; exact Hw|].
    destruct (Hall w0 (or_introl eq_refl)) as (i0 & d0 & Hi0 & Hd0 & ->).
    exists (d0 :: ds). split; [simpl; congruence|]. split.
    + constructor; [|exact Hds]. intros Hin.
      destruct (Hback _ Hin) as (_ & w & Hw & Hiw).
      apply Hnotin. rewrite (letter_index_first_letter w0 w _ Hi0 Hiw).
      apply in_map. exact Hw.
    + intros d [<-|Hd].
      * split; [exact Hd0|]. exists w0. split; [left; reflexivity | exact Hi0].
      * destruct (Hback _ Hd) as (Hr & w & Hw & Hiw).
        split; [exact Hr|]. exists w. split; [right; exact Hw | exact Hiw].
Qed.

Lemma good_tuple_size lo hi t :
  good_tuple lo hi t ->
  1 <= Z.of_nat (List.length t) <= 26
  /\ Z.of_nat (List.length t) <= Z.max 0 (hi - lo + 1) + 1.
Proof.
  intros (anchor & rest & ia & -> & Hia & Hr & Hnd & Hrest).
  split.
  - destruct (distinct_letters_distinct_indexes (anchor :: rest) Hnd)
      as (idx & Hlen & Hidx & Hback).
    { intros word [<-|Hw]; [eauto|].
      destruct (Hrest word Hw) as (iw & d & Hiw & _ & ->).
      eexists. split; [exact Hiw|]. apply Z.mod_pos_bound. lia. }
    rewrite <- Hlen.
    pose proof (NoDup_Z_range idx 0 25 Hidx) as Hp.
    assert (Hin : forall x, In x idx -> 0 <= x <= 25)
      by (intros x Hx; destruct (Hback x Hx); lia).
    specialize (Hp Hin). cbn [List.length] in Hlen. lia.
  - inversion Hnd as [|? ? _ Hnd']; subst.
    destruct (distinct_letters_distinct_distances lo hi ia rest Hnd' Hrest)
      as (ds & Hlen & Hds & Hback).
    pose proof (NoDup_Z_range ds lo hi Hds) as Hp.
    assert (Hin : forall x, In x ds -> lo <= x <= hi)
      by (intros x Hx; destruct (Hback x Hx); lia).
    specialize (Hp Hin). cbn [List.length]. lia.
Qed.

(** X8.  The tuple sizes for which the alphabetical generator can emit
    anything.  If a run emits a tuple, [tuple_size] is at least 1, at most
    26 (the starting letters are distinct letters of the alphabet), and at
    most the number of distances in the range plus one (each further word
    needs a distance of its own): with a single-width range [(d, d)] no
    tuple of three or more words is ever emitted. *)
Theorem alphabetical_tuple_size_limits
    (valid_words : list string) (a b count tuple_size : Z)
    (rng : list N) (out : list word_tuple) :
  run (generate_alphabetical_order_recall_words
         valid_words (PyTuple [a; b]) count tuple_size) rng = Ok out ->
  out <> [] ->
  1 <= tuple_size <= 26
  /\ tuple_size <= snd (normalized a b) - fst (normalized a b) + 2.
Proof.
  intros Hrun Hne.
  pose proof (run_ok _ _ _ _ _
                (alphabetical_spec valid_words a b count tuple_size
                                   (start rng)) Hrun) as (Hall & _).
  destruct out as [|t out]; [congruence|].
  inversion Hall as [|? ? [Hgood Hlen] _]; subst.
  pose proof (good_tuple_size _ _ _ Hgood) as [H26 Hband].
  pose proof (normalized_ordered a b). lia.
Qed.

Lemma alphabetical_tuple_size_limits_witness :
  1 <= 2 <= 26 /\ 2 <= snd (normalized 1 1) - fst (normalized 1 1) + 2.
Proof.
  apply (alphabetical_tuple_size_limits
           ["apple"; "avocado"; "banana"; "blueberry"; "cherry"]
           1 1 1 2 [0; 0; 0]%N [["apple"; "banana"]]).
  - reflexivity.
  - discriminate.
Defined.

(** A single-width range and a tuple of three: the second slot can only
    reach the letter of the first, and every search is given up. *)
Example no_triple_from_a_single_distance :
  run (generate_alphabetical_order_recall_words
         ["apple"; "banana"; "cherry"] (PyTuple [1; 1]) 2 3) [] = Ok []
  /\ given_up (generate_alphabetical_order_recall_words
                 ["apple"; "banana"; "cherry"] (PyTuple [1; 1]) 2 3) []
     = 2%nat.
Proof. split; reflexivity. Qed.

Section SingleWordTuples.
Variables lo hi : Z.
Variable ltw : dict (K := ascii) (V := string).
Variable letters : list ascii.
Hypothesis Hrange : lo <= hi.
Hypothesis Hltw :
  buckets_hold
    (fun k word => first_letter word = Some k
                   /\ char_in k ascii_lowercase = true) ltw.
Hypothesis Hletters : forall l, In l letters -> In l (keys ltw).

Lemma alphabetical_loop_single : forall n acc w,
  outcome (alphabetical_loop lo hi ltw 1 letters n acc) w
          (fun _ w' => abandoned w' = abandoned w) anyhow.
Proof.
  induction n as [|n IH]; intros acc w; cbn [alphabetical_loop].
  - apply outcome_ret. reflexivity.
  - apply outcome_bind.
    eapply outcome_weaken;
      [apply (gather_tuple_spec lo hi ltw 1 letters Hrange Hltw Hletters)
      | | intros; exact I].
    intros r w1 (_ & Hgood & Hlen). cbv beta.
    assert (Hsame : abandoned w1 = abandoned w).
    { destruct Hgood as (anchor & rest & ia & -> & _).
      change (Z.to_nat (1 - 1)) with O in Hlen. cbn [List.length] in Hlen.
      destruct Hlen as [[_ Ha]|[Hshort _]]; [exact Ha | lia]. }
    destruct (Z.of_nat (List.length r) =? 1);
      (eapply outcome_weaken; [apply IH | | auto]);
      intros out w' Hout; cbv beta in *; congruence.
Qed.
End SingleWordTuples.

Lemma alphabetical_single_outcome valid_words difficulty_range count w :
  outcome
    (generate_alphabetical_order_recall_words valid_words difficulty_range
                                              count 1) w
    (fun _ w' => abandoned w' = abandoned w) anyhow.
Proof.
  destruct difficulty_range as [z|[|a [|b [|c l]]]];
    try (unfold outcome; simpl; exact I).
  unfold generate_alphabetical_order_recall_words.
  apply outcome_bind. unfold log at 1. unfold outcome at 1.
  apply outcome_bind. unfold outcome at 1. rewrite normalize_range_pair.
  pose proof (normalized_ordered a b) as Hord.
  destruct (normalized a b) as [lo hi]. cbn [fst snd] in Hord.
  cbv zeta. apply outcome_bind.
  eapply outcome_weaken.
  - apply (alphabetical_loop_single lo hi (build_letter_to_words valid_words)
             (sorted (keys (build_letter_to_words valid_words))) Hord
             (build_letter_to_words_hold valid_words)).
    intros l Hl. apply sorted_In. exact Hl.
  - intros out w' Hout. cbv beta. unfold outcome, bind, log, ret.
    simpl in *. exact Hout.
  - intros; exact I.
Qed.

(** X9.  The degenerate tuple sizes of the alphabetical generator.  With
    [tuple_size = 1] no letter is searched: a run that returns gives
    exactly [count] tuples of one word each and gives up none.  With a
    [tuple_size] of 0 or less a run that returns gives no tuple at all,
    because the first word is gathered before the size is looked at. *)
Theorem alphabetical_degenerate_sizes
    (valid_words : list string) (difficulty_range : pyval)
    (count tuple_size : Z) (rng : list N) (out : list word_tuple) :
  run (generate_alphabetical_order_recall_words
         valid_words difficulty_range count tuple_size) rng = Ok out ->
  (tuple_size = 1 ->
   List.length out = Z.to_nat count
   /\ given_up (generate_alphabetical_order_recall_words
                  valid_words difficulty_range count tuple_size) rng = O)
  /\ (tuple_size <= 0 -> out = []).
Proof.
  intros Hrun.
  assert (Hpair : exists a b, difficulty_range = PyTuple [a; b]).
  { unfold run in Hrun.
    destruct (generate_alphabetical_order_recall_words _ _ _ _ (start rng))
      as [[o|e] w'] eqn:Hg; simpl in Hrun; [|discriminate].
    eapply alphabetical_needs_pair; eauto. }
  destruct Hpair as (a & b & ->).
  pose proof (run_ok _ _ _ _ _
                (alphabetical_spec valid_words a b count tuple_size
                                   (start rng)) Hrun)
    as (Hall & _ & Hcount & _).
  split.
  - intros ->.
    pose proof (run_ok _ _ _ _ _
                  (alphabetical_single_outcome valid_words (PyTuple [a; b])
                                               count (start rng)) Hrun)
      as Hsame.
    unfold given_up. rewrite Hsame. specialize (Hcount ltac:(lia)).
    rewrite Hsame in Hcount. simpl in *. lia.
  - intros Hts. destruct out as [|t out]; [reflexivity|].
    inversion Hall as [|? ? [Hgood Hlen] _]; subst.
    pose proof (good_tuple_size _ _ _ Hgood). lia.
Qed.

Lemma alphabetical_degenerate_sizes_witness :
  (1 = 1 ->
   List.length [["apple"]; ["banana"]; ["cherry"]] = Z.to_nat 3
   /\ given_up (generate_alphabetical_order_recall_words
                  ["apple"; "avocado"; "banana"; "blueberry"; "cherry"]
                  (PyTuple [5; 9]) 3 1) [0; 0; 1; 0; 2; 0]%N = O)
  /\ (1 <= 0 -> [["apple"]; ["banana"]; ["cherry"]] = []).
Proof.
  apply (alphabetical_degenerate_sizes
           ["apple"; "avocado"; "banana"; "blueberry"; "cherry"]
           (PyTuple [5; 9]) 3 1 [0; 0; 1; 0; 2; 0]%N).
  reflexivity.
Defined.

(** ** When the prefix generator returns *)

Lemma sorting_negative_size_raises valid_words rank p ts mpl w :
  ts < 0 -> prefix_buckets valid_words rank mpl <> [] ->
  outcome (generate_sorting_algorithm_words valid_words rank (Z.pos p) ts mpl)
          w (fun _ _ => False) (fun e _ => e = ValueError).
Proof.
  intros Hts Hne. unfold generate_sorting_algorithm_words.
  apply outcome_bind. unfold log at 1. unfold outcome at 1.
  apply outcome_bind.
  destruct valid_words as [|word0 ws] eqn:Hvw;
    [exfalso; apply Hne; reflexivity|].
  rewrite <- Hvw in *. cbv zeta. fold (prefix_buckets valid_words rank mpl).
  destruct (Pos2Nat.is_succ p) as [n Hn]. simpl Z.to_nat. rewrite Hn.
  cbn [sorting_loop].
  destruct (keys (prefix_buckets valid_words rank mpl)) as [|k ks] eqn:Hkeys.
  { destruct (prefix_buckets valid_words rank mpl); [congruence|discriminate]. }
  rewrite <- Hkeys. apply outcome_bind.
  eapply outcome_weaken; [apply choice_spec | |].
  - intros prefix w1 [_ Hprefix]. cbv beta.
    destruct (keys_lookup String.eqb string_eqb_eq _ _ Hprefix)
      as [bucket Hlook].
    apply outcome_bind.
    eapply outcome_weaken;
      [apply (getitem_spec String.eqb) | | intros e w' [? _]; congruence].
    intros vs w2 [-> Hvs]. rewrite Hlook in Hvs. inversion Hvs; subst vs.
    cbv beta.
    destruct (Z.ltb_spec (Z.of_nat (List.length bucket)) ts) as [?|_]; [lia|].
    apply outcome_bind.
    eapply outcome_weaken; [apply sample_spec | |].
    + intros t w2 (_ & Hlen & _). lia.
    + intros e w' (-> & _). reflexivity.
  - intros e w' (Hnil & _). rewrite Hkeys in Hnil. discriminate.
Qed.

(** X10.  What a call of the prefix generator comes to, for every input.
    It raises, and then [ValueError] (from [random.sample] with a negative
    size), exactly when [tuple_size] is negative, [count] is positive and
    the index has a bucket; in every other case, the empty word list
    among them, it returns a list. *)
Theorem sorting_outcomes
    (valid_words : list string) (rank count tuple_size min_prefix_length : Z)
    (rng : list N) :
  match run (generate_sorting_algorithm_words
               valid_words rank count tuple_size min_prefix_length) rng with
  | Ok _ =>
      0 <= tuple_size \/ count <= 0
      \/ prefix_buckets valid_words rank min_prefix_length = []
  | Raise e =>
      e = ValueError /\ tuple_size < 0 /\ 0 < count
      /\ prefix_buckets valid_words rank min_prefix_length <> []
  end.
Proof.
  pose proof (sorting_spec valid_words rank count tuple_size
                           min_prefix_length (start rng)) as Hspec.
  assert (Hraise : forall p, count = Z.pos p -> tuple_size < 0 ->
            prefix_buckets valid_words rank min_prefix_length <> [] ->
            exists w', generate_sorting_algorithm_words
                         valid_words rank count tuple_size min_prefix_length
                         (start rng) = (Raise ValueError, w')).
  { intros p -> Hts Hne.
    pose proof (sorting_negative_size_raises valid_words rank p tuple_size
                  min_prefix_length (start rng) Hts Hne) as Hr.
    unfold outcome in Hr.
    destruct (generate_sorting_algorithm_words _ _ _ _ _ (start rng))
      as [[out|e] w']; [destruct Hr | subst e; eauto]. }
  unfold run. unfold outcome in Hspec.
  destruct (generate_sorting_algorithm_words _ _ _ _ _ (start rng))
    as [[out|e] w'] eqn:Hg; cbn [fst].
  - destruct (Z.leb_spec 0 tuple_size) as [?|Hneg]; [left; assumption|].
    destruct (Z.leb_spec count 0) as [?|Hpos]; [right; left; assumption|].
    right. right.
    destruct (prefix_buckets valid_words rank min_prefix_length)
      as [|entry entries] eqn:Hb; [reflexivity|].
    destruct count as [|q|q]; try lia.
    destruct (Hraise q eq_refl Hneg) as [w'' Hw'']; [discriminate|].
    congruence.
  - destruct Hspec as (-> & Hneg & _). split; [reflexivity|].
    split; [exact Hneg|].
    destruct (Z.leb_spec count 0) as [Hle|Hpos].
    + exfalso. revert Hg.
      unfold generate_sorting_algorithm_words, bind, log.
      replace (Z.to_nat count) with O by lia.
      destruct valid_words; discriminate.
    + split; [exact Hpos|]. intros Hnil. revert Hg.
      unfold generate_sorting_algorithm_words, bind, log.
      destruct valid_words as [|word0 ws] eqn:Hvw; [discriminate|].
      rewrite <- Hvw in *. cbv zeta.
      fold (prefix_buckets valid_words rank min_prefix_length).
      rewrite Hnil. destruct (Z.to_nat count); discriminate.
Qed.

(** ** The words of a prefix tuple *)

Lemma remove_nth_not_in {A} (l : list A) : forall i x,
  NoDup l -> nth_error l i = Some x -> ~ In x (remove_nth i l).
Proof.
  induction l as [|y l IH]; intros i x Hnd Hnth; [destruct i; discriminate|].
  inversion Hnd as [|? ? Hy Hl]; subst.
  destruct i as [|i]; simpl in *.
  - inversion Hnth; subst. exact Hy.
  - intros [->|Hin]; [apply Hy; eapply nth_error_In; eauto|].
    eapply IH; eauto.
Qed.

Lemma remove_nth_NoDup {A} (l : list A) : forall i,
  NoDup l -> NoDup (remove_nth i l).
Proof.
  induction l as [|y l IH]; intros i Hnd; [destruct i; exact Hnd|].
  inversion Hnd as [|? ? Hy Hl]; subst.
  destruct i as [|i]; simpl; [exact Hl|].
  constructor; [|apply IH, Hl].
  intros Hin. apply Hy. eapply remove_nth_incl, Hin.
Qed.

Lemma sample_loop_NoDup {A} (k : nat) : forall (pool : list A) w,
  NoDup pool ->
  outcome (sample_loop k pool) w
          (fun t _ => NoDup t /\ incl t pool) anyhow.
Proof.
  induction k as [|k IH]; intros pool w Hnd; cbn [sample_loop].
  - apply outcome_ret. split; [constructor | intros x []].
  - apply outcome_bind.
    eapply outcome_weaken; [apply outcome_trivial | | auto].
    intros i w1 _. cbv beta.
    destruct (nth_error pool i) as [x|] eqn:Hx; [|exact I].
    apply outcome_bind.
    eapply outcome_weaken;
      [apply IH, remove_nth_NoDup, Hnd | | auto].
    intros rest w2 [Hrest Hincl]. cbv beta. apply outcome_ret. split.
    + constructor; [|exact Hrest].
      intros Hin. apply (remove_nth_not_in pool i x Hnd Hx). apply Hincl, Hin.
    + intros y [<-|Hy]; [eapply nth_error_In; eauto|].
      eapply remove_nth_incl, Hincl, Hy.
Qed.

Lemma sorting_loop_NoDup (d : dict (K := string) (V := string))
    prefixes ts :
  (forall key bucket, lookup String.eqb key d = Some bucket -> NoDup bucket) ->
  forall n acc w,
    Forall (@NoDup string) acc ->
    outcome (sorting_loop d prefixes ts n acc) w
            (fun out _ => Forall (@NoDup string) out) anyhow.
Proof.
  intros Hd. induction n as [|n IH]; intros acc w Hacc; cbn [sorting_loop].
  - apply outcome_ret. exact Hacc.
  - destruct prefixes as [|k ks] eqn:Hp; [apply outcome_ret; exact Hacc|].
    rewrite <- Hp in *. apply outcome_bind.
    eapply outcome_weaken; [apply outcome_trivial | | auto].
    intros prefix w1 _. cbv beta. apply outcome_bind.
    eapply outcome_weaken;
      [apply (getitem_spec String.eqb) | | intros; exact I].
    intros bucket w2 [-> Hlook]. cbv beta.
    destruct (Z.of_nat (List.length bucket) <? ts); [apply IH, Hacc|].
    apply outcome_bind. unfold sample.
    destruct ((ts <? 0) || (Z.of_nat (List.length bucket) <? ts));
      [exact I|].
    eapply outcome_weaken;
      [apply sample_loop_NoDup, (Hd _ _ Hlook) | | auto].
    intros t w2 [Ht _]. cbv beta. apply IH.
    apply Forall_app. split; [exact Hacc | constructor; [exact Ht|constructor]].
Qed.

Lemma sorting_words_outcome valid_words rank count ts mpl w :
  outcome (generate_sorting_algorithm_words valid_words rank count ts mpl) w
    (fun out _ =>
       Forall (fun t => Z.of_nat (List.length t) = ts
                        /\ Forall (fun word => In word valid_words) t
                        /\ (NoDup valid_words -> NoDup t)) out)
    anyhow.
Proof.
  assert (Hnodup : NoDup valid_words ->
    outcome (generate_sorting_algorithm_words valid_words rank count ts mpl) w
            (fun out _ => Forall (@NoDup string) out) anyhow).
  { intros Hvw. unfold generate_sorting_algorithm_words.
    apply outcome_bind. unfold log at 1. unfold outcome at 1.
    apply outcome_bind.
    destruct valid_words as [|word0 ws] eqn:Hw.
    - apply outcome_ret. unfold outcome, bind, log, ret. constructor.
    - rewrite <- Hw in *. cbv zeta.
      fold (prefix_buckets valid_words rank mpl).
      eapply outcome_weaken;
        [apply sorting_loop_NoDup; [|constructor] | | intros; exact I].
      + intros key bucket Hlook. unfold prefix_buckets in Hlook.
        rewrite (build_prefix_to_words_represents valid_words rank mpl _
                   (build_prefixes_NoDup valid_words rank) key) in Hlook.
        destruct (filter _ valid_words) as [|w0 rest] eqn:Hf; [discriminate|].
        inversion Hlook; subst bucket. rewrite <- Hf.
        apply NoDup_filter, Hvw.
      + intros out w' Hout. cbv beta. unfold outcome, bind, log, ret.
        exact Hout. }
  pose proof (sorting_spec valid_words rank count ts mpl w) as Hspec.
  unfold outcome in *.
  destruct (generate_sorting_algorithm_words valid_words rank count ts mpl w)
    as [[out|e] w']; [|exact I].
  destruct Hspec as (_ & _ & Hall & _).
  rewrite Forall_forall in *. intros t Ht.
  destruct (Hall t Ht) as (Hlen & key & bucket & Hlook & Hincl).
  split; [exact Hlen|]. split.
  - apply Forall_forall. intros word Hword.
    apply (lookup_In String.eqb string_eqb_eq) in Hlook.
    destruct (build_prefix_to_words_hold valid_words rank mpl
                (build_prefixes valid_words rank) _ _ Hlook) as [_ Hfiled].
    apply (Hfiled word (Hincl _ Hword)).
  - intros Hvw. apply (Hnodup Hvw), Ht.
Qed.

(** X11.  Every tuple the prefix generator emits has exactly [tuple_size]
    words, all of them words of the word list as they stand there; and when
    the word list names no word twice, neither does a tuple (the words are
    sampled without replacement). *)
Theorem sorting_tuples_sized_and_distinct
    (valid_words : list string) (rank count tuple_size min_prefix_length : Z)
    (rng : list N) (out : list word_tuple) (t : word_tuple) :
  run (generate_sorting_algorithm_words
         valid_words rank count tuple_size min_prefix_length) rng = Ok out ->
  In t out ->
  Z.of_nat (List.length t) = tuple_size
  /\ (forall word, In word t -> In word valid_words)
  /\ (NoDup valid_words -> NoDup t).
Proof.
  intros Hrun Ht.
  pose proof (run_ok _ _ _ _ _
                (sorting_words_outcome valid_words rank count tuple_size
                                       min_prefix_length (start rng)) Hrun)
    as Hall.
  rewrite Forall_forall in Hall. destruct (Hall t Ht) as (Hlen & Hin & Hnd).
  split; [exact Hlen|]. split; [|exact Hnd].
  rewrite Forall_forall in Hin. exact Hin.
Qed.

Lemma sorting_tuples_sized_and_distinct_witness :
  Z.of_nat (List.length ["avocado"; "apple"]) = 2
  /\ (forall word, In word ["avocado"; "apple"] ->
                   In word ["apple"; "avocado"; "banana"])
  /\ (NoDup ["apple"; "avocado"; "banana"] -> NoDup ["avocado"; "apple"]).
Proof.
  apply (sorting_tuples_sized_and_distinct
           ["apple"; "avocado"; "banana"] 1 1 2 2 [0; 1; 0]%N
           [["avocado"; "apple"]]).
  - reflexivity.
  - left. reflexivity.
Defined.

(** ** The mixed generator: the other extreme, and its tuples *)

Section AlphabeticalOnly.
Variable valid_words : list string.
Variable tuple_size : Z.
Variables probability_goal1 probability_goal2 : Q.
Variable difficulty1 : pyval.
Variable difficulty2 : Z.
Hypothesis Hgoal1 : (0 < probability_goal1)%Q.
Hypothesis Hgoal2 : (probability_goal2 == 0)%Q.


End AlphabeticalOnly.



Lemma mixed_loop_words valid_words ts p1 total d1 d2 : forall n acc w,
  Forall (fun t => Z.of_nat (List.length t) = ts
                   /\ Forall (fun word => In word valid_words) t) acc ->
  outcome (mixed_loop valid_words ts p1 total d1 d2 n acc) w
    (fun out _ =>
       Forall (fun t => Z.of_nat (List.length t) = ts
                        /\ Forall (fun word => In word valid_words) t) out)
    anyhow.
Proof.
  assert (Hsort : forall w,
    outcome (generate_sorting_algorithm_words valid_words d2 1 ts 2) w
      (fun out _ =>
         Forall (fun t => Z.of_nat (List.length t) = ts
                          /\ Forall (fun word => In word valid_words) t) out)
      anyhow).
  { intros w. eapply outcome_weaken;
      [apply sorting_words_outcome | | intros; exact I].
    intros out w' Hout. cbv beta in *. rewrite Forall_forall in *.
    intros t Ht. destruct (Hout t Ht) as (? & ? & _). auto. }
  induction n as [|n IH]; intros acc w Hacc; cbn [mixed_loop].
  - apply outcome_ret. exact Hacc.
  - apply outcome_bind.
    eapply outcome_weaken; [apply outcome_trivial | | auto].
    intros r w1 _. cbv beta.
    destruct (Qltb r p1).
    + apply outcome_bind.
      eapply outcome_weaken; [apply alphabetical_words_outcome | | auto].
      intros tuples w2 Htuples. cbv beta. apply IH.
      apply Forall_app. split; assumption.
    + apply outcome_bind.
      eapply outcome_weaken; [apply Hsort | | auto].
      intros tuples w2 Htuples. cbv beta.
      destruct tuples as [|t tuples].
      * apply outcome_bind.
        eapply outcome_weaken; [apply alphabetical_words_outcome | | auto].
        intros tuples' w3 Htuples'. cbv beta. apply IH.
        apply Forall_app. split; assumption.
      * apply IH. apply Forall_app. split; assumption.
Qed.

(** X13.  Whichever generator a round of [generate_word_tuples] takes a
    tuple from, the tuple has exactly [tuple_size] words and all of them
    are words of the word list. *)
Theorem mixed_tuples_sized_from_the_list
    (valid_words : list string) (count tuple_size : Z)
    (probability_goal1 probability_goal2 : Q)
    (difficulty1 : pyval) (difficulty2 : Z) (rng : list N)
    (out : list word_tuple) (t : word_tuple) :
  run (generate_word_tuples valid_words count tuple_size
         probability_goal1 probability_goal2 difficulty1 difficulty2) rng
  = Ok out ->
  In t out ->
  Z.of_nat (List.length t) = tuple_size
  /\ forall word, In word t -> In word valid_words.
Proof.
  intros Hrun Ht.
  pose proof (run_ok _ _ _ _ _
                (mixed_loop_words valid_words tuple_size probability_goal1
                   (probability_goal1 + probability_goal2)%Q
                   difficulty1 difficulty2 (Z.to_nat count) [] (start rng)
                   (Forall_nil _)) Hrun) as Hall.
  rewrite Forall_forall in Hall. destruct (Hall t Ht) as [Hlen Hin].
  split; [exact Hlen|]. rewrite Forall_forall in Hin. exact Hin.
Qed.

Lemma mixed_tuples_sized_from_the_list_witness :
  Z.of_nat (List.length ["apple"; "avocado"]) = 2
  /\ forall word, In word ["apple"; "avocado"] ->
       In word ["apple"; "avocado"; "banana"; "blueberry"; "cherry"].
Proof.
  apply (mixed_tuples_sized_from_the_list
           ["apple"; "avocado"; "banana"; "blueberry"; "cherry"]
           2 2 (1 # 2) (1 # 2) (PyTuple [1; 1]) 1
           [9007199254740991; 0; 0; 1; 0; 5; 5; 2; 0; 0]%N
           [["apple"; "avocado"]]).
  - reflexivity.
  - left. reflexivity.
Defined.

(** ** The text [show] prints *)






(** ** Pairs from a word list that covers the alphabet *)

Section PairsAlwaysFound.
Variables lo hi : Z.
Variable ltw : dict (K := ascii) (V := string).
Variable letters : list ascii.
Hypothesis Hlo : 1 <= lo.
Hypothesis Hrange : lo <= hi.
Hypothesis Hhi : hi <= 25.
Hypothesis Hltw :
  buckets_hold
    (fun k word => first_letter word = Some k
                   /\ char_in k ascii_lowercase = true) ltw.
Hypothesis Hletters : forall l, In l letters -> In l (keys ltw).
Hypothesis Hevery :
  forall l, char_in l ascii_lowercase = true ->
            has_key Ascii.eqb l ltw = true.

Lemma other_letter_is_suitable i l start_letter :
  find_char start_letter ascii_lowercase = Some i ->
  reached lo hi (Z.of_nat i) l ->
  unsuitable ltw [start_letter] l = false.
Proof.
  intros Hstart (d & Hd & Hl). unfold unsuitable.
  rewrite (Hevery l (find_char_in _ _ _ Hl)). cbn [negb].
  rewrite orb_false_r. unfold mem. cbn [existsb]. rewrite orb_false_r.
  destruct (Ascii.eqb l start_letter) eqn:Heq; [|reflexivity].
  apply Ascii.eqb_eq in Heq. subst l. exfalso.
  pose proof (find_char_bound _ _ _ Hstart) as Hb.
  change (String.length ascii_lowercase) with 26%nat in Hb.
  rewrite Hstart in Hl. inversion Hl as [Hi].
  pose proof (Z.div_mod (Z.of_nat i + d) 26 ltac:(lia)) as Hdm.
  pose proof (Z.mod_pos_bound (Z.of_nat i + d) 26 ltac:(lia)) as Hm.
  assert (Hmod : (Z.of_nat i + d) mod 26 = Z.of_nat i) by lia.
  rewrite Hmod in Hdm. lia.
Qed.

Lemma gather_pair_never_gives_up w :
  outcome (gather_tuple lo hi ltw 2 letters) w
          (fun _ w' => abandoned w' = abandoned w) anyhow.
Proof.
  unfold gather_tuple. apply outcome_bind.
  eapply outcome_weaken; [apply choice_spec | | intros; exact I].
  intros start_letter w1 [[_ Ha1] Hstart]. cbv beta.
  destruct (keys_lookup Ascii.eqb ascii_eqb_eq _ _ (Hletters _ Hstart))
    as [bucket Hlook].
  pose proof (lookup_In Ascii.eqb ascii_eqb_eq _ _ _ Hlook) as Hin.
  destruct (Hltw _ _ Hin) as [Hne Hbucket].
  assert (Hchar : char_in start_letter ascii_lowercase = true).
  { destruct bucket as [|word bucket]; [congruence|].
    apply (Hbucket word). left; reflexivity. }
  destruct (char_in_find _ _ Hchar) as [i Hi].
  apply outcome_bind. unfold str_index at 1. rewrite Hi. apply outcome_ret.
  apply outcome_bind.
  eapply outcome_weaken;
    [apply (getitem_spec Ascii.eqb) | | intros; exact I].
  intros vs w2 [-> _]. cbv beta. apply outcome_bind.
  eapply outcome_weaken; [apply choice_spec | | intros; exact I].
  intros first_word w2 [[_ Ha2] _]. cbv beta.
  change (Z.to_nat (2 - 1)) with 1%nat. cbn [fill_slots].
  apply outcome_bind.
  eapply outcome_weaken;
    [apply (sample_letter_spec lo hi Hrange) | | intros; exact I].
  intros l w3 [[_ Ha3] Hl]. cbv beta.
  cbn [resample_loop].
  rewrite (other_letter_is_suitable i l start_letter Hi Hl). cbn [andb].
  apply outcome_bind. apply outcome_ret. cbv beta iota.
  change (0 >=? 26) with false. cbv iota.
  apply outcome_bind.
  eapply outcome_weaken;
    [apply (getitem_spec Ascii.eqb) | | intros; exact I].
  intros vs' w4 [-> _]. cbv beta. apply outcome_bind.
  eapply outcome_weaken; [apply choice_spec | | intros; exact I].
  intros word w4 [[_ Ha4] _]. cbv beta. apply outcome_ret. congruence.
Qed.

Lemma alphabetical_loop_pairs : forall n acc w,
  outcome (alphabetical_loop lo hi ltw 2 letters n acc) w
          (fun _ w' => abandoned w' = abandoned w) anyhow.
Proof.
  induction n as [|n IH]; intros acc w; cbn [alphabetical_loop].
  - apply outcome_ret. reflexivity.
  - apply outcome_bind.
    eapply outcome_weaken; [apply gather_pair_never_gives_up | | auto].
    intros r w1 Hsame. cbv beta.
    destruct (Z.of_nat (List.length r) =? 2);
      (eapply outcome_weaken; [apply IH | | auto]);
      intros out w' Hout; cbv beta in *; congruence.
Qed.
End PairsAlwaysFound.

(** X15.  Full yield for pairs.  When every letter of the alphabet starts
    some word of the list and the range lies within 1..25, the letter a
    drawn distance leads to is never the anchor's and always has words, so
    no search is given up: a call with [tuple_size = 2] returns exactly
    [count] pairs. *)
Theorem pairs_always_found
    (valid_words : list string) (a b count : Z) (rng : list N) :
  every_letter_has_a_word valid_words ->
  1 <= a -> a <= b -> b <= 25 ->
  exists out,
    run (generate_alphabetical_order_recall_words
           valid_words (PyTuple [a; b]) count 2) rng = Ok out
    /\ List.length out = Z.to_nat count
    /\ given_up (generate_alphabetical_order_recall_words
                   valid_words (PyTuple [a; b]) count 2) rng = O.
Proof.
  intros Hevery Ha Hab Hb.
  assert (Hkey : forall l, char_in l ascii_lowercase = true ->
                           In l (keys (build_letter_to_words valid_words))).
  { intros l Hl. apply letter_key_iff, Hevery, Hl. }
  assert (Hsame :
    outcome
      (generate_alphabetical_order_recall_words valid_words (PyTuple [a; b])
                                                count 2) (start rng)
      (fun _ w' => abandoned w' = O) anyhow).
  { unfold generate_alphabetical_order_recall_words.
    apply outcome_bind. unfold log at 1. unfold outcome at 1.
    apply outcome_bind. unfold outcome at 1. rewrite normalize_range_pair.
    rewrite normalized_in_band by assumption. cbv zeta. apply outcome_bind.
    eapply outcome_weaken.
    - apply (alphabetical_loop_pairs a b (build_letter_to_words valid_words)
               (sorted (keys (build_letter_to_words valid_words)))
               Ha Hab Hb (build_letter_to_words_hold valid_words)).
      + intros l Hl. apply sorted_In. exact Hl.
      + intros l Hl. unfold has_key.
        destruct (keys_lookup Ascii.eqb ascii_eqb_eq _ _ (Hkey l Hl))
          as [bucket ->]. reflexivity.
    - intros out w' Hout. cbv beta. unfold outcome, bind, log, ret.
      simpl in *. exact Hout.
    - intros; exact I. }
  destruct (outcome_total _ _ _ _
              (alphabetical_spec valid_words a b count 2 (start rng)))
    as (out & w' & Hrun & _ & _ & Hcount & _).
  { intros e w' (Hnil & _).
    assert (Hin : In "a"%char (keys (build_letter_to_words valid_words)))
      by (apply Hkey; reflexivity).
    rewrite Hnil in Hin. destruct Hin. }
  unfold outcome in Hsame. rewrite Hrun in Hsame.
  exists out. unfold run, given_up. rewrite Hrun. cbn [fst snd].
  split; [reflexivity|]. split; [|exact Hsame].
  specialize (Hcount ltac:(lia)). rewrite Hsame in Hcount. simpl in Hcount.
  lia.
Qed.

Lemma pairs_always_found_witness :
  exists out,
    run (generate_alphabetical_order_recall_words
           ["ant"; "Bee"; "cat"; "dog"; "eel"; "fox"; "gnu"; "hen"; "ibis";
            "jay"; "kiwi"; "lynx"; "mole"; "newt"; "owl"; "pig"; "quail";
            "rat"; "seal"; "toad"; "urial"; "vole"; "wasp"; "xerus"; "yak";
            "zebra"] (PyTuple [3; 7]) 4 2) [9; 0; 2; 0]%N = Ok out
    /\ List.length out = Z.to_nat 4
    /\ given_up (generate_alphabetical_order_recall_words
           ["ant"; "Bee"; "cat"; "dog"; "eel"; "fox"; "gnu"; "hen"; "ibis";
            "jay"; "kiwi"; "lynx"; "mole"; "newt"; "owl"; "pig"; "quail";
            "rat"; "seal"; "toad"; "urial"; "vole"; "wasp"; "xerus"; "yak";
            "zebra"] (PyTuple [3; 7]) 4 2) [9; 0; 2; 0]%N = O.
Proof.
  apply (pairs_always_found
           ["ant"; "Bee"; "cat"; "dog"; "eel"; "fox"; "gnu"; "hen"; "ibis";
            "jay"; "kiwi"; "lynx"; "mole"; "newt"; "owl"; "pig"; "quail";
            "rat"; "seal"; "toad"; "urial"; "vole"; "wasp"; "xerus"; "yak";
            "zebra"] 3 7 4 [9; 0; 2; 0]%N); try lia.
  intros l Hl. unfold ascii_lowercase in Hl. cbn [char_in] in Hl.
  repeat (apply orb_prop in Hl;
          destruct Hl as [Hl|Hl];
          [apply Ascii.eqb_eq in Hl; subst l;
           apply existsb_exists; reflexivity|]).
  discriminate.
Defined.

(** ** How many tuples the prefix generator gives *)

(** X16.  The yield of the prefix generator at its two extremes.  When the
    index has a bucket and every bucket holds at least [tuple_size] words,
    no round is skipped and a run returns exactly [count] tuples; this is
    so for every [tuple_size] of at most 1, since no bucket is empty.  When
    every bucket holds fewer than [tuple_size] words, every round is
    skipped and the run returns no tuple. *)
Theorem prefix_yield_extremes
    (valid_words : list string) (rank count tuple_size min_prefix_length : Z)
    (rng : list N) (out : list word_tuple) :
  run (generate_sorting_algorithm_words
         valid_words rank count tuple_size min_prefix_length) rng = Ok out ->
  (prefix_buckets valid_words rank min_prefix_length <> [] ->
   (forall key bucket,
      In (key, bucket) (prefix_buckets valid_words rank min_prefix_length) ->
      tuple_size <= Z.of_nat (List.length bucket)) ->
   List.length out = Z.to_nat count)
  /\ (prefix_buckets valid_words rank min_prefix_length <> [] ->
      tuple_size <= 1 -> List.length out = Z.to_nat count)
  /\ ((forall key bucket,
         In (key, bucket) (prefix_buckets valid_words rank min_prefix_length) ->
         Z.of_nat (List.length bucket) < tuple_size) ->
      out = []).
Proof.
  intros Hrun.
  pose proof (run_ok _ _ _ _ _
                (sorting_spec valid_words rank count tuple_size
                              min_prefix_length (start rng)) Hrun)
    as (_ & _ & _ & _ & Hfull & Hnone).
  split; [exact Hfull|]. split; [|exact Hnone].
  intros Hne Hts. apply Hfull; [exact Hne|].
  intros key bucket Hin.
  destruct (build_prefix_to_words_hold valid_words rank min_prefix_length
              (build_prefixes valid_words rank) _ _ Hin) as [Hnonempty _].
  destruct bucket; [congruence | cbn [List.length]; lia].
Qed.

Lemma prefix_yield_extremes_witness :
  (prefix_buckets ["apple"; "avocado"; "axe"; "banana"; "bean"] 1 2 <> [] ->
   (forall key bucket,
      In (key, bucket)
         (prefix_buckets ["apple"; "avocado"; "axe"; "banana"; "bean"] 1 2) ->
      2 <= Z.of_nat (List.length bucket)) ->
   List.length [["apple"; "avocado"]; ["bean"; "banana"]] = Z.to_nat 2)
  /\ (prefix_buckets ["apple"; "avocado"; "axe"; "banana"; "bean"] 1 2 <> [] ->
      2 <= 1 ->
      List.length [["apple"; "avocado"]; ["bean"; "banana"]] = Z.to_nat 2)
  /\ ((forall key bucket,
         In (key, bucket)
            (prefix_buckets ["apple"; "avocado"; "axe"; "banana"; "bean"] 1 2) ->
         Z.of_nat (List.length bucket) < 2) ->
      [["apple"; "avocado"]; ["bean"; "banana"]] = []).
Proof.
  apply (prefix_yield_extremes
           ["apple"; "avocado"; "axe"; "banana"; "bean"] 1 2 2 2
           [0; 0; 0; 1; 1; 0]%N).
  reflexivity.
Defined.
